(** * A TLV wire codec: varints, values, encoder and decoder

    Shallow embedding of [protocol.go].  Bytes are integers in [0, 256),
    a Go [string] or [[]byte] is a [list Z], machine integers are [Z] with
    their wrap-around written out (64-bit [int], as on amd64/arm64). *)

From Stdlib Require Import String.
From Stdlib Require Import ZArith List Lia Bool Permutation.
Import ListNotations.
Open Scope Z_scope.

(** ** Machine integers *)

Module Go.

Definition uint64 (x : Z) : Z := x mod 2 ^ 64.
Definition uint32 (x : Z) : Z := x mod 2 ^ 32.
Definition byte (x : Z) : Z := x mod 2 ^ 8.

(** [int(x)] for [x : uint64]: the same 64 bits read as two's complement. *)
Definition int (x : Z) : Z := if x <? 2 ^ 63 then x else x - 2 ^ 64.

(** [int32(x)] for [x : uint32]. *)
Definition int32 (x : Z) : Z := if x <? 2 ^ 31 then x else x - 2 ^ 32.

(** [x + y] on [int]: wraps silently. *)
Definition int_add (x y : Z) : Z := int (uint64 (x + y)).

Definition maxInt : Z := 2 ^ 63 - 1.

(** runtime.maxAlloc on 64-bit linux (48 address bits) and the size of
    an [interface{}] word pair; [makeslice] panics when the requested
    capacity times the element size overflows or exceeds [maxAlloc]. *)
Definition maxAlloc : Z := 2 ^ 48.
Definition ifaceSize : Z := 16.

Definition len {A} (s : list A) : Z := Z.of_nat (length s).

(** [s[lo:]] and [s[i]] for indices already known to be in range. *)
Definition from {A} (s : list A) (lo : Z) : list A := skipn (Z.to_nat lo) s.
Definition slice {A} (s : list A) (lo hi : Z) : list A :=
  firstn (Z.to_nat (hi - lo)) (skipn (Z.to_nat lo) s).
Definition index (s : list Z) (i : Z) : Z := nth (Z.to_nat i) s 0.

End Go.

Import Go.

(** ** Outcomes of a call *)

Inductive error : Type :=
| ErrVarintTooLong
| ErrIncompleteVarint
| ErrUnexpectedEnd
| ErrStringLength
| ErrInvalidUTF8
| ErrInsufficientInt32
| ErrUnknownTag (tag : Z)
| ErrUnsupportedType (ty : String.string).

Inductive panic : Type :=
| SliceBoundsOutOfRange (lo hi : Z)
| MakesliceCapOutOfRange (cap : Z).

(** [Ok]/[Err] are the two ways a Go function returns; [Panic] aborts the
    goroutine; [OutOfFuel] belongs to the model only. *)
Inductive outcome (A : Type) : Type :=
| Ok (a : A)
| Err (e : error)
| Panic (p : panic)
| OutOfFuel.

Arguments Ok {A} a.
Arguments Err {A} e.
Arguments Panic {A} p.
Arguments OutOfFuel {A}.

(** ** Constants and the value model *)

Definition TypeString : Z := 0x01.
Definition TypeInt32 : Z := 0x02.
Definition TypeDataInput : Z := 0x03.
Definition TypeNull : Z := 0x00.

(** An [interface{}]: one of the four shapes the codec knows, or a value
    of some other dynamic type (named as [%T] prints it). *)
#[warnings="-register-all"]
Inductive value : Type :=
| VNil
| VString (s : list Z)
| VInt32 (i : Z)
| VDataInput (elements : list value)
| VOther (ty : String.string).

Definition NewDataInput (elements : list value) : value := VDataInput elements.

(** ** Varint codec *)

(** The loop of [encodeVarint]; [slots] counts the cells of [buf] not yet
    written, and [buf[:i+1]] is the bytes written so far, in order.  A
    uint64 never runs out of cells ([encodeVarint_buf_suffices]). *)
Fixpoint encodeVarint_loop (slots : nat) (n : Z) : list Z :=
  match slots with
  | O => []
  | S slots' =>
      if 0x80 <=? n
      then Z.lor (byte n) 0x80 :: encodeVarint_loop slots' (Z.shiftr n 7)
      else [byte n]
  end.

Definition encodeVarint (n : Z) : list Z := encodeVarint_loop 10 n.

(** The loop of [decodeVarint] at index [i], [data] being [data[i:]]. *)
Fixpoint decodeVarint_loop (data : list Z) (i n shift : Z) : outcome (Z * Z) :=
  match data with
  | [] => Err ErrIncompleteVarint
  | b :: rest =>
      if 9 <? i then Err ErrVarintTooLong
      else
        let n := Z.lor n (uint64 (Z.shiftl (Z.land b 0x7F) shift)) in
        if b <? 0x80 then Ok (n, i + 1)
        else decodeVarint_loop rest (i + 1) n (shift + 7)
  end.

Definition decodeVarint (data : list Z) : outcome (Z * Z) :=
  decodeVarint_loop data 0 0 0.

(** ** Encoder *)

Definition Write (b : list Z) (p : list Z) : list Z := b ++ p.
Definition WriteByte (b : list Z) (c : Z) : list Z := b ++ [c].

(** binary.LittleEndian.PutUint32 *)
Definition PutUint32 (v : Z) : list Z :=
  [byte v; byte (Z.shiftr v 8); byte (Z.shiftr v 16); byte (Z.shiftr v 24)].

(** binary.LittleEndian.Uint32 on a four-byte slice *)
Definition Uint32 (b : list Z) : Z :=
  uint32 (Z.lor (Z.lor (Z.lor (index b 0) (Z.shiftl (index b 1) 8))
                       (Z.shiftl (index b 2) 16))
                (Z.shiftl (index b 3) 24)).

(** [encodeElement] threads the buffer and returns it with the error. *)
Fixpoint encodeElement (buf : list Z) (elem : value) : list Z * option error :=
  match elem with
  | VString v =>
      let buf := WriteByte buf TypeString in
      let buf := Write buf (encodeVarint (uint64 (len v))) in
      let buf := Write buf v in
      (buf, None)
  | VInt32 v =>
      let buf := WriteByte buf TypeInt32 in
      let buf := Write buf (PutUint32 (uint32 v)) in
      (buf, None)
  | VDataInput elements =>
      let buf := WriteByte buf TypeDataInput in
      let buf := Write buf (encodeVarint (uint64 (len elements))) in
      (fix range (buf : list Z) (rest : list value) : list Z * option error :=
         match rest with
         | [] => (buf, None)
         | subElem :: rest' =>
             match encodeElement buf subElem with
             | (buf', Some err) => (buf', Some err)
             | (buf', None) => range buf' rest'
             end
         end) buf elements
  | VNil => (WriteByte buf TypeNull, None)
  | VOther ty => (buf, Some (ErrUnsupportedType ty))
  end.

(** [encode] drops the error and returns whatever the buffer holds. *)
Definition encode (toSend : value) : list Z := fst (encodeElement [] toSend).

(** ** UTF-8 validation (unicode/utf8.ValidString) *)

Definition inRange (lo hi c : Z) : bool := (lo <=? c) && (c <=? hi).

(** The [first] table with its accept range: size of the sequence and the
    bounds of the second byte; [None] is the invalid marker. *)
Definition first (si : Z) : option (Z * Z * Z) :=
  if inRange 0xC2 0xDF si then Some (2, 0x80, 0xBF)
  else if si =? 0xE0 then Some (3, 0xA0, 0xBF)
  else if inRange 0xE1 0xEC si then Some (3, 0x80, 0xBF)
  else if si =? 0xED then Some (3, 0x80, 0x9F)
  else if inRange 0xEE 0xEF si then Some (3, 0x80, 0xBF)
  else if si =? 0xF0 then Some (4, 0x90, 0xBF)
  else if inRange 0xF1 0xF3 si then Some (4, 0x80, 0xBF)
  else if si =? 0xF4 then Some (4, 0x80, 0x8F)
  else None.

Fixpoint ValidString (s : list Z) : bool :=
  match s with
  | [] => true
  | si :: s1 =>
      if si <? 0x80 then ValidString s1
      else
        match first si with
        | None => false
        | Some (size, lo, hi) =>
            match s1 with
            | [] => false
            | c1 :: s2 =>
                if negb (inRange lo hi c1) then false
                else if size =? 2 then ValidString s2
                else
                  match s2 with
                  | [] => false
                  | c2 :: s3 =>
                      if negb (inRange 0x80 0xBF c2) then false
                      else if size =? 3 then ValidString s3
                      else
                        match s3 with
                        | [] => false
                        | c3 :: s4 =>
                            if negb (inRange 0x80 0xBF c3) then false
                            else ValidString s4
                        end
                  end
            end
        end
  end.

(** ** Decoder *)

(** [decodeElement] and the element loop of its list branch.  Both count
    down the same [fuel]; [decode] supplies enough of it. *)
Fixpoint decodeElement (fuel : nat) (data : list Z) (offset : Z)
  : outcome (value * Z) :=
  match fuel with
  | O => OutOfFuel
  | S fuel' =>
      if len data <=? offset then Err ErrUnexpectedEnd
      else
        let typeTag := index data offset in
        let offset := offset + 1 in
        if typeTag =? TypeString then
          match decodeVarint (from data offset) with
          | Ok (length, consumed) =>
              let offset := offset + consumed in
              let hi := int_add offset (int length) in
              if len data <? hi then Err ErrStringLength
              else if hi <? offset then Panic (SliceBoundsOutOfRange offset hi)
              else
                let str := slice data offset hi in
                if negb (ValidString str) then Err ErrInvalidUTF8
                else Ok (VString str, hi)
          | Err e => Err e
          | Panic p => Panic p
          | OutOfFuel => OutOfFuel
          end
        else if typeTag =? TypeInt32 then
          if len data <? offset + 4 then Err ErrInsufficientInt32
          else
            let val := Uint32 (slice data offset (offset + 4)) in
            Ok (VInt32 (int32 val), offset + 4)
        else if typeTag =? TypeDataInput then
          match decodeVarint (from data offset) with
          | Ok (count, consumed) =>
              let offset := offset + consumed in
              if maxAlloc <? ifaceSize * count
              then Panic (MakesliceCapOutOfRange count)
              else decodeElements fuel' data (int count) 0 offset []
          | Err e => Err e
          | Panic p => Panic p
          | OutOfFuel => OutOfFuel
          end
        else if typeTag =? TypeNull then Ok (VNil, offset)
        else Err (ErrUnknownTag typeTag)
  end

with decodeElements (fuel : nat) (data : list Z) (count i offset : Z)
                    (elements : list value) : outcome (value * Z) :=
  if i <? count then
    match fuel with
    | O => OutOfFuel
    | S fuel' =>
        match decodeElement fuel' data offset with
        | Ok (elem, bytesRead) =>
            decodeElements fuel' data count (i + 1) bytesRead (elements ++ [elem])
        | Err e => Err e
        | Panic p => Panic p
        | OutOfFuel => OutOfFuel
        end
    end
  else Ok (VDataInput elements, offset).

Definition decodeFuel (data : list Z) : nat := 2 * length data + 2.

(** [decode] keeps the first result of [decodeElement] and drops the
    offset and the error: on every error path that result is [nil]. *)
Definition decode (received : list Z) : outcome value :=
  match decodeElement (decodeFuel received) received 0 with
  | Ok (result, _) => Ok result
  | Err _ => Ok VNil
  | Panic p => Panic p
  | OutOfFuel => OutOfFuel
  end.

(** ** Structural comparison *)

Fixpoint bytes_eqb (a b : list Z) : bool :=
  match a, b with
  | [], [] => true
  | x :: a', y :: b' => (x =? y) && bytes_eqb a' b'
  | _, _ => false
  end.

Fixpoint compareDataInput (a b : value) : bool :=
  match a with
  | VString va => match b with VString vb => bytes_eqb va vb | _ => false end
  | VInt32 va => match b with VInt32 vb => va =? vb | _ => false end
  | VDataInput ea =>
      match b with
      | VDataInput eb =>
          if negb (len ea =? len eb) then false
          else
            (fix range (xs ys : list value) : bool :=
               match xs, ys with
               | x :: xs', y :: ys' =>
                   if negb (compareDataInput x y) then false else range xs' ys'
               | _, _ => true
               end) ea eb
      | _ => false
      end
  | VNil => match b with VNil => true | _ => false end
  | VOther _ => false
  end.

Definition bytes_of_string (s : String.string) : list Z :=
  map (fun b => Z.of_N (Byte.to_N b)) (String.list_byte_of_string s).

(** ** Vocabulary of the specification *)

(** Number of significant bits of [n] (math/bits.Len64). *)
Definition bits_needed (n : Z) : Z := if n =? 0 then 0 else Z.log2 n + 1.

Definition is_byte (b : Z) : bool := (0 <=? b) && (b <? 256).

(** The values of the model: nil, a string of bytes that is valid UTF-8,
    an int32, or a [*DataInput] of such values whose element slice the
    runtime can allocate. *)
Fixpoint model_value (v : value) : bool :=
  match v with
  | VNil => true
  | VString s => forallb is_byte s && ValidString s
  | VInt32 i => (- 2 ^ 31 <=? i) && (i <? 2 ^ 31)
  | VDataInput elements =>
      (ifaceSize * len elements <=? maxAlloc) && forallb model_value elements
  | VOther _ => false
  end.

(** No value of an unsupported dynamic type anywhere inside. *)
Fixpoint encodable (v : value) : bool :=
  match v with
  | VDataInput elements => forallb encodable elements
  | VOther _ => false
  | _ => true
  end.

(** The errors the specification files under TruncatedInput: the input is
    exhausted, a declared length exceeds what remains, or a varint ends
    mid-sequence. *)
Definition truncated_input (e : error) : bool :=
  match e with
  | ErrIncompleteVarint | ErrUnexpectedEnd | ErrStringLength
  | ErrInsufficientInt32 => true
  | _ => false
  end.

(** The range loop of [encodeElement]'s list branch, named. *)
Fixpoint encodeRange (buf : list Z) (rest : list value) : list Z * option error :=
  match rest with
  | [] => (buf, None)
  | subElem :: rest' =>
      match encodeElement buf subElem with
      | (buf', Some err) => (buf', Some err)
      | (buf', None) => encodeRange buf' rest'
      end
  end.

(** Induction over values that reaches the elements of a list. *)
Fixpoint value_ind' (P : value -> Prop)
    (Hnil : P VNil) (Hstr : forall s, P (VString s)) (Hint : forall i, P (VInt32 i))
    (Hdata : forall l, Forall P l -> P (VDataInput l))
    (Hother : forall ty, P (VOther ty)) (v : value) : P v :=
  match v with
  | VNil => Hnil
  | VString s => Hstr s
  | VInt32 i => Hint i
  | VDataInput l =>
      Hdata l
        ((fix all (l : list value) : Forall P l :=
            match l with
            | [] => Forall_nil P
            | x :: xs =>
                Forall_cons x (value_ind' P Hnil Hstr Hint Hdata Hother x) (all xs)
            end) l)
  | VOther ty => Hother ty
  end.

(** ** The optimisation helpers

    The second source file: the pooled encoder's fast varint write, the
    byte comparison, the aligned buffer, the ring buffer's capacity and the
    batch encoder.  Their run-time panics are written out as [Fault]. *)

Module Opt.

Inductive fault : Type :=
| IndexOutOfRange (i n : Z)
| SliceOutOfRange (lo hi : Z)
| MakesliceOutOfRange (n : Z)
| DivideByZero.

Inductive run (A : Type) : Type :=
| Done (a : A)
| Fault (p : fault).

Arguments Done {A} a.
Arguments Fault {A} p.

(** [b[i] = x] *)
Definition set_index {A} (b : list A) (i : Z) (x : A) : run (list A) :=
  if (i <? 0) || (len b <=? i) then Fault (IndexOutOfRange i (len b))
  else Done (firstn (Z.to_nat i) b ++ x :: skipn (Z.to_nat i + 1) b).

(** A buffer is modelled with its capacity equal to its length, which is
    what [WriteVarintFast] itself installs when it grows one. *)
Record OptimizedEncoder : Type := { buf : list Z; pos : Z }.

(** The general-case loop of [WriteVarintFast]; a uint64 leaves it within
    ten rounds. *)
Fixpoint WriteVarintFast_loop (rounds : nat) (b : list Z) (p v : Z)
  : run (list Z * Z * Z) :=
  match rounds with
  | O => Done (b, p, v)
  | S rounds' =>
      if 0x80 <=? v then
        match set_index b p (Z.lor (byte v) 0x80) with
        | Done b' => WriteVarintFast_loop rounds' b' (p + 1) (Z.shiftr v 7)
        | Fault f => Fault f
        end
      else Done (b, p, v)
  end.

Definition WriteVarintFast (e : OptimizedEncoder) (v : Z) : run OptimizedEncoder :=
  let grown :=
    if len (buf e) <? pos e + 10 then
      let n := (pos e + 10) * 2 in
      if (n <? 0) || (maxAlloc <? n) then Fault (MakesliceOutOfRange n)
      else if (pos e <? 0) || (len (buf e) <? pos e)
           then Fault (SliceOutOfRange 0 (pos e))
      else Done (firstn (Z.to_nat (pos e)) (buf e)
                   ++ repeat 0 (Z.to_nat (n - pos e)))
    else Done (buf e) in
  match grown with
  | Fault f => Fault f
  | Done b =>
      if v <? 128 then
        match set_index b (pos e) (byte v) with
        | Done b => Done {| buf := b; pos := pos e + 1 |}
        | Fault f => Fault f
        end
      else if v <? 16384 then
        match set_index b (pos e) (byte (Z.lor v 0x80)) with
        | Done b =>
            match set_index b (pos e + 1) (byte (Z.shiftr v 7)) with
            | Done b => Done {| buf := b; pos := pos e + 2 |}
            | Fault f => Fault f
            end
        | Fault f => Fault f
        end
      else
        match WriteVarintFast_loop 10 b (pos e) v with
        | Done (b, p, v) =>
            match set_index b p (byte v) with
            | Done b => Done {| buf := b; pos := p + 1 |}
            | Fault f => Fault f
            end
        | Fault f => Fault f
        end
  end.

(** [for i := range a { if a[i] != b[i] { return false } }; return true],
    [a] being [a[i:]]. *)
Fixpoint range_compare (a b : list Z) (i : Z) : run bool :=
  match a with
  | [] => Done true
  | x :: a' =>
      if (i <? 0) || (len b <=? i) then Fault (IndexOutOfRange i (len b))
      else if negb (x =? index b i) then Done false
      else range_compare a' b (i + 1)
  end.

Definition simdCompareBytes (a b : list Z) : run bool := range_compare a b 0.

Definition SIMDStringCompare (a b : list Z) : run bool :=
  if negb (len a =? len b) then Done false
  else if len a <? 16 then range_compare a b 0
  else simdCompareBytes a b.

Record AlignedBuffer : Type := { data : list Z; aligned : list Z }.

(** [(64 - ptr%64) % 64] on a uintptr. *)
Definition align_offset (ptr : Z) : Z := (64 - ptr mod 64) mod 64.

(** [ptr] is the address the allocator gave to [data[0]]. *)
Definition NewAlignedBuffer (ptr : Z) (size : Z) : run AlignedBuffer :=
  let n := size + 64 in
  if (n <? 0) || (maxAlloc <? n) then Fault (MakesliceOutOfRange n)
  else
    let data := repeat 0 (Z.to_nat n) in
    if len data <=? 0 then Fault (IndexOutOfRange 0 (len data))
    else
      let offset := align_offset ptr in
      let hi := int offset + size in
      if (hi <? offset) || (len data <? hi) then Fault (SliceOutOfRange offset hi)
      else Done {| data := data; aligned := slice data offset hi |}.

Record LockFreeRingBuffer : Type :=
  { buffer : list value; capacity : Z; head : Z; tail : Z }.

(** The rounding of a capacity up to a power of two, on uint64. *)
Definition round_capacity (capacity : Z) : Z :=
  if negb (Z.land capacity (uint64 (capacity - 1)) =? 0) then
    let v := capacity in
    let v := uint64 (v - 1) in
    let v := Z.lor v (Z.shiftr v 1) in
    let v := Z.lor v (Z.shiftr v 2) in
    let v := Z.lor v (Z.shiftr v 4) in
    let v := Z.lor v (Z.shiftr v 8) in
    let v := Z.lor v (Z.shiftr v 16) in
    let v := Z.lor v (Z.shiftr v 32) in
    let v := uint64 (v + 1) in
    v
  else capacity.

Definition NewLockFreeRingBuffer (capacity : Z) : run LockFreeRingBuffer :=
  let capacity := round_capacity capacity in
  if maxAlloc <? ifaceSize * capacity then Fault (MakesliceOutOfRange capacity)
  else Done {| buffer := repeat VNil (Z.to_nat capacity);
               capacity := capacity; head := 0; tail := 0 |}.

(** [results[i] = encode(inputs[i])] *)
Definition write_result (inputs : list value) (results : list (list Z)) (i : Z)
  : run (list (list Z)) :=
  if (i <? 0) || (len inputs <=? i) then Fault (IndexOutOfRange i (len inputs))
  else set_index results i (encode (nth (Z.to_nat i) inputs VNil)).

Fixpoint run_writes (inputs : list value) (results : list (list Z)) (ws : list Z)
  : run (list (list Z)) :=
  match ws with
  | [] => Done results
  | i :: ws' =>
      match write_result inputs results i with
      | Done results' => run_writes inputs results' ws'
      | Fault f => Fault f
      end
  end.

(** The indices [for i := start; i < end; i++] visits. *)
Definition index_range (start end_ : Z) : list Z :=
  map (fun k => start + Z.of_nat k) (seq 0 (Z.to_nat (end_ - start))).

(** The goroutines [EncodeBatch] starts, each as the indices it writes, in
    the order of the [for w] loop. *)
Fixpoint spawn (rounds : nat) (w workers chunkSize n : Z) : list (list Z) :=
  match rounds with
  | O => []
  | S rounds' =>
      if w <? workers then
        let start := w * chunkSize in
        let end_ := start + chunkSize in
        let end_ := if n <? end_ then n else end_ in
        index_range start end_ :: spawn rounds' (w + 1) workers chunkSize n
      else []
  end.

(** [schedule] picks the order in which the writes of the goroutines take
    place before [wg.Wait] returns. *)
Definition EncodeBatch (schedule : list (list Z) -> list Z) (workers : Z)
    (inputs : list value) : run (list (list Z)) :=
  let results := repeat [] (length inputs) in
  if len inputs <? int (uint64 (workers * 2)) then
    run_writes inputs results (index_range 0 (len inputs))
  else if workers =? 0 then Fault DivideByZero
  else
    let chunkSize := Z.quot (len inputs + workers - 1) workers in
    run_writes inputs results
      (schedule (spawn (Z.to_nat workers) 0 workers chunkSize (len inputs))).

End Opt.

(** Case analysis on the next test of the decoder's body. *)
Ltac branch :=
  match goal with
  | |- context [match decodeVarint ?x with _ => _ end] =>
      destruct (decodeVarint x) as [[? ?]| | |] eqn:?
  | |- context [if ?c then _ else _] => destruct c eqn:?
  end.

(** * Properties *)

(** ** Arithmetic on bytes and words *)

Lemma byte_forall (P : Z -> bool) :
  forallb P (map Z.of_nat (seq 0 256)) = true ->
  forall b, 0 <= b < 256 -> P b = true.
Proof.
  intros H b Hb.
  rewrite forallb_forall in H. apply H.
  replace b with (Z.of_nat (Z.to_nat b)) by lia.
  apply in_map, in_seq. lia.
Qed.

Lemma byte_range x : 0 <= byte x < 256.
Proof. unfold byte. change (2 ^ 8) with 256. apply Z.mod_pos_bound. lia. Qed.

Lemma byte_small x : 0 <= x < 256 -> byte x = x.
Proof. intros. unfold byte. change (2 ^ 8) with 256. apply Z.mod_small. lia. Qed.

Lemma uint64_small x : 0 <= x < 2 ^ 64 -> uint64 x = x.
Proof. intros. unfold uint64. apply Z.mod_small. lia. Qed.

Lemma int_small x : 0 <= x <= maxInt -> int x = x.
Proof.
  unfold int, maxInt. intros. destruct (Z.ltb_spec x (2 ^ 63)); lia.
Qed.

Lemma int_add_small x y : 0 <= x + y <= maxInt -> int_add x y = x + y.
Proof.
  unfold int_add, maxInt. intros.
  rewrite uint64_small by lia. apply int_small. unfold maxInt. lia.
Qed.

(** A continuation byte keeps the low seven bits of [n] and is at least 0x80. *)
Lemma cont_byte_low7 n : Z.land (Z.lor (byte n) 0x80) 0x7F = n mod 128.
Proof.
  replace (n mod 128) with (byte n mod 128).
  2:{ unfold byte. apply Z.mod_mod_divide. exists 2. reflexivity. }
  generalize (byte_range n). generalize (byte n). intros b Hb.
  apply Z.eqb_eq.
  apply (byte_forall (fun b => Z.land (Z.lor b 0x80) 0x7F =? b mod 128)); auto.
Qed.

Lemma cont_byte_range n : 0x80 <= Z.lor (byte n) 0x80 < 256.
Proof.
  generalize (byte_range n). generalize (byte n). intros b Hb.
  assert (H : ((0x80 <=? Z.lor b 0x80) && (Z.lor b 0x80 <? 256))%bool = true)
    by (apply (byte_forall (fun b => (0x80 <=? Z.lor b 0x80) && (Z.lor b 0x80 <? 256))%bool); auto).
  apply andb_true_iff in H. lia.
Qed.

Lemma low7_small b : 0 <= b < 0x80 -> Z.land b 0x7F = b.
Proof.
  intros Hb. apply Z.eqb_eq.
  assert (H : (negb (b <? 0x80) || (Z.land b 0x7F =? b))%bool = true)
    by (apply (byte_forall (fun b => negb (b <? 0x80) || (Z.land b 0x7F =? b))%bool); auto; lia).
  destruct (Z.ltb_spec b 0x80); simpl in H; auto; lia.
Qed.

Lemma final_byte_bit7 b : 0 <= b < 0x80 -> Z.land b 0x80 = 0.
Proof.
  intros Hb. apply Z.eqb_eq.
  assert (H : (negb (b <? 0x80) || (Z.land b 0x80 =? 0))%bool = true)
    by (apply (byte_forall (fun b => negb (b <? 0x80) || (Z.land b 0x80 =? 0))%bool); auto; lia).
  destruct (Z.ltb_spec b 0x80); simpl in H; auto; lia.
Qed.

(** Or-ing in bits above everything set so far is an addition. *)
Lemma lor_shiftl_add a b k :
  0 <= k -> 0 <= a < 2 ^ k -> 0 <= b ->
  Z.lor a (Z.shiftl b k) = a + b * 2 ^ k.
Proof.
  intros Hk Ha Hb.
  assert (Hd : Z.land a (Z.shiftl b k) = 0).
  { apply Z.bits_inj'. intros m Hm.
    rewrite Z.land_spec, Z.bits_0.
    destruct (Z.ltb_spec m k).
    - rewrite Z.shiftl_spec_low by lia. apply andb_false_r.
    - destruct (Z.eqb_spec a 0) as [->|Hne].
      + rewrite Z.bits_0. reflexivity.
      + rewrite (Z.bits_above_log2 a m); auto; try lia.
        apply Z.lt_le_trans with k; auto. apply Z.log2_lt_pow2; lia. }
  rewrite <- Z.lxor_lor by exact Hd.
  rewrite <- Z.add_nocarry_lxor by exact Hd.
  rewrite Z.shiftl_mul_pow2 by lia. reflexivity.
Qed.

(** ** UTF-8 validation on a few strings *)

Example ValidString_samples :
  ValidString (bytes_of_string "Hello, World!"%string) = true /\
  ValidString [0xC3; 0xA9] = true /\
  ValidString [0xF0; 0x9F; 0x9A; 0x80] = true /\
  ValidString [0x80] = false /\
  ValidString [0xC0; 0x80] = false /\
  ValidString [0xED; 0xA0; 0x80] = false /\
  ValidString [0xE2; 0x82] = false /\
  ValidString [0xF5; 0x80; 0x80; 0x80] = false.
Proof. vm_compute. repeat split; reflexivity. Qed.

(** ** The varint codec *)

Lemma len_cons {A} (x : A) (l : list A) : len (x :: l) = 1 + len l.
Proof. unfold len. simpl length. lia. Qed.

Lemma len_app {A} (l1 l2 : list A) : len (l1 ++ l2) = len l1 + len l2.
Proof. unfold len. rewrite length_app. lia. Qed.

Lemma len_nonneg {A} (l : list A) : 0 <= len l.
Proof. unfold len. lia. Qed.

Lemma pow7_succ i : 0 <= i -> 2 ^ (7 * (i + 1)) = 2 ^ (7 * i) * 128.
Proof.
  intros. replace (7 * (i + 1)) with (7 * i + 7) by ring.
  rewrite Z.pow_add_r by lia. reflexivity.
Qed.

Lemma shiftr7 n : Z.shiftr n 7 = n / 128.
Proof. rewrite Z.shiftr_div_pow2 by lia. reflexivity. Qed.

(** Decoding what the encoder loop wrote, from any loop state that has
    room for it, adds [n] above the bits accumulated so far. *)
Lemma decodeVarint_loop_encode slots :
  forall n i acc rest,
    0 <= i <= 9 -> Z.of_nat slots = 10 - i ->
    0 <= acc < 2 ^ (7 * i) -> 0 <= n -> n * 2 ^ (7 * i) < 2 ^ 64 ->
    decodeVarint_loop (encodeVarint_loop slots n ++ rest) i acc (7 * i)
    = Ok (acc + n * 2 ^ (7 * i), i + len (encodeVarint_loop slots n)).
Proof.
  induction slots as [|slots IH]; intros n i acc rest Hi Hs Hacc Hn Hfit.
  - lia.
  - assert (HP : 0 < 2 ^ (7 * i)) by (apply Z.pow_pos_nonneg; lia).
    cbn [encodeVarint_loop].
    destruct (Z.leb_spec 0x80 n) as [Hge|Hlt].
    + assert (Hi8 : i <= 8).
      { destruct (Z.eq_dec i 9) as [->|]; [|lia].
        change (2 ^ (7 * 9)) with 9223372036854775808 in Hfit.
        change (2 ^ 64) with 18446744073709551616 in Hfit. lia. }
      pose proof (cont_byte_range n) as Hb.
      pose proof (Z.mod_pos_bound n 128 ltac:(lia)) as Hm.
      pose proof (Z.div_mod n 128 ltac:(lia)) as Hdm.
      assert (Hq : 0 <= n / 128) by (apply Z.div_pos; lia).
      cbn [app decodeVarint_loop].
      destruct (Z.ltb_spec 9 i); [lia|].
      destruct (Z.ltb_spec (Z.lor (byte n) 0x80) 0x80); [lia|].
      rewrite cont_byte_low7.
      assert (Hlow : 0 <= n mod 128 * 2 ^ (7 * i) < 2 ^ 64).
      { split; [apply Z.mul_nonneg_nonneg; lia|].
        apply Z.le_lt_trans with (n * 2 ^ (7 * i)); [|exact Hfit].
        apply Z.mul_le_mono_nonneg_r; lia. }
      rewrite uint64_small by (rewrite Z.shiftl_mul_pow2 by lia; exact Hlow).
      rewrite lor_shiftl_add by lia.
      replace (7 * i + 7) with (7 * (i + 1)) by ring.
      pose proof (pow7_succ i ltac:(lia)) as HS.
      rewrite shiftr7, IH; try lia.
      * rewrite len_cons, HS. f_equal. f_equal; [|lia].
        rewrite Hdm at 3. ring.
      * rewrite HS. split; [lia|].
        replace (2 ^ (7 * i) * 128) with (2 ^ (7 * i) + 127 * 2 ^ (7 * i)) by ring.
        apply Z.add_lt_le_mono; [lia|]. apply Z.mul_le_mono_nonneg_r; lia.
    + cbn [app decodeVarint_loop].
      destruct (Z.ltb_spec 9 i); [lia|].
      rewrite byte_small by lia.
      destruct (Z.ltb_spec n 0x80); [|lia].
      rewrite low7_small by lia.
      rewrite uint64_small
        by (rewrite Z.shiftl_mul_pow2 by lia; split;
            [apply Z.mul_nonneg_nonneg; lia | exact Hfit]).
      rewrite lor_shiftl_add by lia.
      reflexivity.
Qed.

Lemma decodeVarint_encodeVarint_app n rest :
  0 <= n < 2 ^ 64 ->
  decodeVarint (encodeVarint n ++ rest) = Ok (n, len (encodeVarint n)).
Proof.
  intros Hn. unfold decodeVarint, encodeVarint.
  change (decodeVarint_loop (encodeVarint_loop 10 n ++ rest) 0 0 0)
    with (decodeVarint_loop (encodeVarint_loop 10 n ++ rest) 0 0 (7 * 0)).
  rewrite decodeVarint_loop_encode; change (2 ^ (7 * 0)) with 1; try lia.
  f_equal. f_equal. lia.
Qed.

(** C4: for every uint64 [n], [decodeVarint (encodeVarint n)] returns
    without error exactly [n] and the number of bytes [encodeVarint n]
    produced. *)
Theorem varint_round_trip (n : Z) :
  0 <= n < 2 ^ 64 ->
  decodeVarint (encodeVarint n) = Ok (n, len (encodeVarint n)).
Proof.
  intros Hn.
  rewrite <- (app_nil_r (encodeVarint n)) at 1.
  apply decodeVarint_encodeVarint_app; exact Hn.
Qed.

Lemma varint_round_trip_witness :
  decodeVarint (encodeVarint 300) = Ok (300, len (encodeVarint 300)).
Proof. apply (varint_round_trip 300). lia. Defined.

Lemma encodeVarint_loop_nonempty slots n :
  (0 < slots)%nat -> encodeVarint_loop slots n <> [].
Proof.
  destruct slots; [lia|]. intros _. cbn [encodeVarint_loop].
  destruct (0x80 <=? n); discriminate.
Qed.

Lemma last_cons_nonempty {A} (x d : A) (l : list A) :
  l <> [] -> last (x :: l) d = last l d.
Proof. destruct l; [congruence|reflexivity]. Qed.

Lemma pow7_slots slots : 2 ^ (7 * Z.of_nat (S slots)) = 2 ^ (7 * Z.of_nat slots) * 128.
Proof.
  replace (Z.of_nat (S slots)) with (Z.of_nat slots + 1) by lia.
  apply pow7_succ. lia.
Qed.

Lemma bits_needed_shift n :
  0x80 <= n -> bits_needed n = bits_needed (n / 128) + 7 /\ 7 <= bits_needed (n / 128) + 6.
Proof.
  intros Hn.
  assert (Hq : 1 <= n / 128) by (apply Z.div_le_lower_bound; lia).
  unfold bits_needed.
  destruct (Z.eqb_spec n 0); [lia|].
  destruct (Z.eqb_spec (n / 128) 0); [lia|].
  rewrite <- shiftr7, Z.log2_shiftr by lia.
  assert (7 <= Z.log2 n) by (apply (Z.log2_le_pow2 n 7); lia).
  pose proof (Z.log2_nonneg n). lia.
Qed.

Lemma encodeVarint_loop_len slots :
  forall n, (0 < slots)%nat -> 0 <= n < 2 ^ (7 * Z.of_nat slots) ->
    len (encodeVarint_loop slots n) = Z.max 1 ((bits_needed n + 6) / 7).
Proof.
  induction slots as [|slots IH]; intros n Hpos Hn.
  - lia.
  - rewrite pow7_slots in Hn. cbn [encodeVarint_loop].
    destruct (Z.leb_spec 0x80 n) as [Hge|Hlt].
    + destruct (bits_needed_shift n Hge) as [Hb Hb7].
      assert (Hq : 1 <= n / 128) by (apply Z.div_le_lower_bound; lia).
      assert (Hq' : n / 128 < 2 ^ (7 * Z.of_nat slots))
        by (apply Z.div_lt_upper_bound; lia).
      assert (Hs : (0 < slots)%nat).
      { destruct slots; [|lia]. change (2 ^ (7 * Z.of_nat 0)) with 1 in Hq'. lia. }
      rewrite len_cons, shiftr7, IH, Hb by lia.
      replace (bits_needed (n / 128) + 7 + 6) with (bits_needed (n / 128) + 6 + 1 * 7) by ring.
      rewrite Z.div_add by lia.
      assert (1 <= (bits_needed (n / 128) + 6) / 7)
        by (apply Z.div_le_lower_bound; lia).
      lia.
    + rewrite len_cons. change (len (@nil Z)) with 0.
      assert (Hs : (bits_needed n + 6) / 7 <= 1).
      { unfold bits_needed. destruct (Z.eqb_spec n 0); [change ((0 + 6) / 7) with 0; lia|].
        assert (Z.log2 n < 7) by (apply Z.log2_lt_pow2; lia).
        pose proof (Z.log2_nonneg n).
        assert ((Z.log2 n + 1 + 6) / 7 < 2) by (apply Z.div_lt_upper_bound; lia).
        lia. }
      lia.
Qed.

Lemma encodeVarint_loop_last slots :
  forall n, 0 <= n < 2 ^ (7 * Z.of_nat slots) ->
    0 <= last (encodeVarint_loop slots n) 0 < 0x80 /\
    (0 < n -> last (encodeVarint_loop slots n) 0 <> 0).
Proof.
  induction slots as [|slots IH]; intros n Hn.
  - change (2 ^ (7 * Z.of_nat 0)) with 1 in Hn. simpl. lia.
  - rewrite pow7_slots in Hn. cbn [encodeVarint_loop].
    destruct (Z.leb_spec 0x80 n) as [Hge|Hlt].
    + assert (Hq : 1 <= n / 128) by (apply Z.div_le_lower_bound; lia).
      assert (Hq' : n / 128 < 2 ^ (7 * Z.of_nat slots))
        by (apply Z.div_lt_upper_bound; lia).
      assert (Hs : (0 < slots)%nat).
      { destruct slots; [|lia]. change (2 ^ (7 * Z.of_nat 0)) with 1 in Hq'. lia. }
      rewrite shiftr7, last_cons_nonempty by (apply encodeVarint_loop_nonempty; exact Hs).
      destruct (IH (n / 128)) as [H1 H2]; [lia|].
      split; [exact H1|]. intros _. apply H2. lia.
    + cbn [last]. rewrite byte_small by lia. lia.
Qed.

(** The ten cells of [buf] are never exhausted by a uint64: the loop
    reaches its last write with cells to spare, so more cells would not
    change the output. *)
Lemma encodeVarint_loop_slots slots :
  forall n extra, (0 < slots)%nat -> 0 <= n < 2 ^ (7 * Z.of_nat slots) ->
    encodeVarint_loop (slots + extra) n = encodeVarint_loop slots n.
Proof.
  induction slots as [|slots IH]; intros n extra Hpos Hn; [lia|].
  rewrite pow7_slots in Hn. cbn [Nat.add encodeVarint_loop].
  destruct (Z.leb_spec 0x80 n) as [Hge|Hlt]; [|reflexivity].
  assert (Hq : 1 <= n / 128) by (apply Z.div_le_lower_bound; lia).
  assert (Hq' : n / 128 < 2 ^ (7 * Z.of_nat slots))
    by (apply Z.div_lt_upper_bound; lia).
  assert (Hs : (0 < slots)%nat).
  { destruct slots; [|lia]. change (2 ^ (7 * Z.of_nat 0)) with 1 in Hq'. lia. }
  f_equal. rewrite shiftr7. apply IH; [exact Hs|lia].
Qed.

Lemma encodeVarint_buf_suffices n extra :
  0 <= n < 2 ^ 64 -> encodeVarint_loop (10 + extra) n = encodeVarint n.
Proof.
  intros Hn. apply encodeVarint_loop_slots; [lia|].
  change (2 ^ (7 * Z.of_nat 10)) with (2 ^ 64 * 64). lia.
Qed.

(** C7: for every uint64 [n] the varint has [max 1 (ceil (bits_needed n / 7))]
    bytes, between 1 and 10; 0 is the single byte 0x00; the final byte has
    the continuation bit clear and, when [n > 0], is not zero. *)
Theorem varint_size_canonical (n : Z) :
  0 <= n < 2 ^ 64 ->
  len (encodeVarint n) = Z.max 1 ((bits_needed n + 6) / 7) /\
  1 <= len (encodeVarint n) <= 10 /\
  encodeVarint 0 = [0x00] /\
  Z.land (last (encodeVarint n) 0) 0x80 = 0 /\
  (0 < n -> last (encodeVarint n) 0 <> 0).
Proof.
  intros Hn.
  assert (Hn' : 0 <= n < 2 ^ (7 * Z.of_nat 10))
    by (change (2 ^ (7 * Z.of_nat 10)) with (2 ^ 64 * 64); lia).
  pose proof (encodeVarint_loop_len 10 n ltac:(lia) Hn') as Hlen.
  destruct (encodeVarint_loop_last 10 n Hn') as [Hlast Hnz].
  fold (encodeVarint n) in Hlen, Hlast, Hnz.
  assert (Hbits : 0 <= bits_needed n <= 64).
  { unfold bits_needed. destruct (Z.eqb_spec n 0); [lia|].
    assert (Z.log2 n < 64) by (apply Z.log2_lt_pow2; lia).
    pose proof (Z.log2_nonneg n). lia. }
  assert ((bits_needed n + 6) / 7 <= 10).
  { assert ((bits_needed n + 6) / 7 < 11) by (apply Z.div_lt_upper_bound; lia). lia. }
  split; [exact Hlen|]. split; [lia|]. split; [reflexivity|].
  split; [apply final_byte_bit7; lia | exact Hnz].
Qed.

Lemma varint_size_canonical_witness :
  len (encodeVarint 16384) = Z.max 1 ((bits_needed 16384 + 6) / 7) /\
  1 <= len (encodeVarint 16384) <= 10 /\
  encodeVarint 0 = [0x00] /\
  Z.land (last (encodeVarint 16384) 0) 0x80 = 0 /\
  (0 < 16384 -> last (encodeVarint 16384) 0 <> 0).
Proof. apply (varint_size_canonical 16384). lia. Defined.

(** The boundary sizes the specification lists. *)
Example varint_boundary_sizes :
  map (fun n => len (encodeVarint n)) [0; 127; 128; 16383; 16384; 2 ^ 64 - 1]
  = [1; 1; 2; 2; 3; 10].
Proof. reflexivity. Qed.

(** ** The encoder *)

Lemma encodeElement_data buf l :
  encodeElement buf (VDataInput l)
  = encodeRange (Write (WriteByte buf TypeDataInput) (encodeVarint (uint64 (len l)))) l.
Proof. reflexivity. Qed.

(** The encoder only appends, and what it appends and whether it fails do
    not depend on the buffer it was handed. *)
Lemma encodeElement_append v :
  forall buf, encodeElement buf v = (buf ++ encode v, snd (encodeElement [] v)).
Proof.
  induction v as [|s|i|l IH|ty] using value_ind'; intros buf;
    unfold encode;
    try (cbn [encodeElement fst snd]; unfold Write, WriteByte; cbn [app];
         rewrite ?app_nil_r, <- ?app_assoc; reflexivity).
  rewrite !encodeElement_data. unfold Write, WriteByte.
  cbn [app]. rewrite <- app_assoc.
  generalize (encodeVarint (uint64 (len l))) as hd. intros hd.
  change ([TypeDataInput] ++ hd) with (TypeDataInput :: hd).
  generalize (TypeDataInput :: hd) as b0. clear hd. revert buf.
  induction IH as [|x xs Hx _ IHxs]; intros buf b0.
  - reflexivity.
  - cbn [encodeRange].
    rewrite (Hx (buf ++ b0)), (Hx b0).
    destruct (snd (encodeElement [] x)).
    + cbn [fst snd]. rewrite app_assoc. reflexivity.
    + rewrite <- app_assoc. apply IHxs.
Qed.

Lemma encodeElement_ok v :
  encodable v = true -> snd (encodeElement [] v) = None.
Proof.
  induction v as [|s|i|l IH|ty] using value_ind'; cbn [encodable];
    intros He; try reflexivity; try discriminate.
  rewrite encodeElement_data.
  generalize (Write (WriteByte [] TypeDataInput) (encodeVarint (uint64 (len l)))).
  induction IH as [|x xs Hx _ IHxs]; intros b0; [reflexivity|].
  cbn [forallb] in He. apply andb_true_iff in He as [He1 He2].
  cbn [encodeRange]. rewrite encodeElement_append, (Hx He1). apply IHxs, He2.
Qed.

Lemma encodeRange_ok l :
  forallb encodable l = true ->
  forall buf, encodeRange buf l = (buf ++ concat (map encode l), None).
Proof.
  induction l as [|x xs IH]; intros He buf; cbn [encodeRange map concat].
  - rewrite app_nil_r. reflexivity.
  - cbn [forallb] in He. apply andb_true_iff in He as [He1 He2].
    rewrite encodeElement_append, (encodeElement_ok x He1), (IH He2), <- app_assoc.
    reflexivity.
Qed.

Lemma encode_data l :
  forallb encodable l = true ->
  encode (VDataInput l)
  = TypeDataInput :: encodeVarint (uint64 (len l)) ++ concat (map encode l).
Proof.
  intros He. unfold encode. rewrite encodeElement_data, (encodeRange_ok l He).
  reflexivity.
Qed.

Lemma model_value_encodable v : model_value v = true -> encodable v = true.
Proof.
  induction v as [|s|i|l IH|ty] using value_ind'; cbn [model_value encodable];
    intros Hm; try reflexivity; try discriminate.
  apply andb_true_iff in Hm as [_ Hm].
  induction IH as [|x xs Hx _ IHxs]; [reflexivity|].
  cbn [forallb] in *. apply andb_true_iff in Hm as [H1 H2].
  rewrite (Hx H1), (IHxs H2). reflexivity.
Qed.

Lemma encodeElement_fails v :
  encodable v = false -> snd (encodeElement [] v) <> None.
Proof.
  induction v as [|s|i|l IH|ty] using value_ind'; cbn [encodable];
    intros He; try discriminate.
  rewrite encodeElement_data.
  generalize (Write (WriteByte [] TypeDataInput) (encodeVarint (uint64 (len l)))).
  induction IH as [|x xs Hx _ IHxs]; intros b0; [discriminate|].
  cbn [forallb] in He. cbn [encodeRange]. rewrite encodeElement_append.
  destruct (encodable x) eqn:Ex.
  - rewrite (encodeElement_ok x Ex). apply IHxs. exact He.
  - specialize (Hx eq_refl). destruct (snd (encodeElement [] x)); [discriminate|congruence].
Qed.

(** The range loop stops at the first element that cannot be encoded,
    leaving in the buffer the elements before it and whatever that
    element wrote before failing. *)
Lemma encodeRange_stop l :
  forallb encodable l = false ->
  forall buf, exists k err,
    (k < length l)%nat /\
    forallb encodable (firstn k l) = true /\
    encodable (nth k l VNil) = false /\
    snd (encodeElement [] (nth k l VNil)) = Some err /\
    encodeRange buf l
    = (buf ++ concat (map encode (firstn k l)) ++ encode (nth k l VNil), Some err).
Proof.
  induction l as [|x xs IH]; intros He buf; [discriminate|].
  cbn [forallb] in He. cbn [encodeRange]. rewrite encodeElement_append.
  destruct (encodable x) eqn:Ex.
  - destruct (IH He (buf ++ encode x)) as (k & err & Hk & Hpre & Hbad & Herr & Hrun).
    exists (S k), err. cbn [length firstn nth forallb map concat].
    rewrite Ex, (encodeElement_ok x Ex), Hrun, <- !app_assoc.
    repeat split; auto; lia.
  - pose proof (encodeElement_fails x Ex) as Hf.
    destruct (snd (encodeElement [] x)) as [err|] eqn:Hs; [|congruence].
    exists O, err. cbn [length firstn nth forallb map concat app].
    repeat split; auto; lia.
Qed.

(** C9: the two pinned encodings, byte for byte. *)
Theorem pinned_scenario_encodings :
  encode (NewDataInput []) = [0x03; 0x00] /\
  encode (NewDataInput [VString (bytes_of_string "foo"%string);
                        NewDataInput [VString (bytes_of_string "bar"%string); VInt32 42]])
  = [0x03; 0x02; 0x01; 0x03; 0x66; 0x6F; 0x6F;
     0x03; 0x02; 0x01; 0x03; 0x62; 0x61; 0x72; 0x02; 0x2A; 0x00; 0x00; 0x00].
Proof. split; vm_compute; reflexivity. Qed.

(** C10: [encode] drops the error of [encodeElement].  A value of an
    unsupported type yields the empty string at top level; a [*DataInput]
    with such a child yields the tag, the varint of the full element count,
    the encodings of the [k] elements before the first one that fails (with
    [k] below the count) and the fragment the failing element left. *)
Theorem encode_drops_unsupported_type (ty : String.string) (l : list value) :
  In (VOther ty) l ->
  encodeElement [] (VOther ty) = ([], Some (ErrUnsupportedType ty)) /\
  encode (VOther ty) = [] /\
  exists k err,
    (k < length l)%nat /\
    forallb encodable (firstn k l) = true /\
    encodable (nth k l VNil) = false /\
    encodeElement [] (VDataInput l)
    = (TypeDataInput :: encodeVarint (uint64 (len l))
         ++ concat (map encode (firstn k l)) ++ encode (nth k l VNil),
       Some err) /\
    encode (VDataInput l)
    = TypeDataInput :: encodeVarint (uint64 (len l))
        ++ concat (map encode (firstn k l)) ++ encode (nth k l VNil).
Proof.
  intros Hin. split; [reflexivity|]. split; [reflexivity|].
  assert (He : forallb encodable l = false).
  { destruct (forallb encodable l) eqn:E; [|reflexivity].
    rewrite forallb_forall in E. specialize (E _ Hin). discriminate E. }
  destruct (encodeRange_stop l He
              (Write (WriteByte [] TypeDataInput) (encodeVarint (uint64 (len l)))))
    as (k & err & Hk & Hpre & Hbad & _ & Hrun).
  exists k, err. unfold encode. rewrite encodeElement_data, Hrun.
  repeat split; auto.
Qed.

Lemma encode_drops_unsupported_type_witness :
  let l := [VInt32 7; VOther "int"%string; VNil] in
  encodeElement [] (VOther "int"%string) = ([], Some (ErrUnsupportedType "int"%string)) /\
  encode (VOther "int"%string) = [] /\
  exists k err,
    (k < length l)%nat /\
    forallb encodable (firstn k l) = true /\
    encodable (nth k l VNil) = false /\
    encodeElement [] (VDataInput l)
    = (TypeDataInput :: encodeVarint (uint64 (len l))
         ++ concat (map encode (firstn k l)) ++ encode (nth k l VNil),
       Some err) /\
    encode (VDataInput l)
    = TypeDataInput :: encodeVarint (uint64 (len l))
        ++ concat (map encode (firstn k l)) ++ encode (nth k l VNil).
Proof.
  apply (encode_drops_unsupported_type "int"%string [VInt32 7; VOther "int"%string; VNil]).
  simpl. right. left. reflexivity.
Defined.

(** What the claim looks like on a concrete list: count 3, one element. *)
Example encode_unsupported_child :
  encode (VDataInput [VInt32 7; VOther "int"%string; VNil])
  = [0x03; 0x03; 0x02; 0x07; 0x00; 0x00; 0x00].
Proof. vm_compute. reflexivity. Qed.

(** ** The decoder: fuel *)

Lemma decodeElements_S f d c i o acc :
  decodeElements (S f) d c i o acc
  = if i <? c then
      match decodeElement f d o with
      | Ok (elem, bytesRead) => decodeElements f d c (i + 1) bytesRead (acc ++ [elem])
      | Err e => Err e
      | Panic p => Panic p
      | OutOfFuel => OutOfFuel
      end
    else Ok (VDataInput acc, o).
Proof. reflexivity. Qed.

Lemma decodeElements_done f d c i o acc :
  c <= i -> decodeElements f d c i o acc = Ok (VDataInput acc, o).
Proof.
  intros H. destruct f; cbn [decodeElements];
    destruct (Z.ltb_spec i c); try lia; reflexivity.
Qed.

(** One more unit of fuel never changes a result that was reached. *)
Lemma decode_fuel_succ f :
  (forall d o, decodeElement f d o <> OutOfFuel ->
               decodeElement (S f) d o = decodeElement f d o) /\
  (forall d c i o acc, decodeElements f d c i o acc <> OutOfFuel ->
               decodeElements (S f) d c i o acc = decodeElements f d c i o acc).
Proof.
  induction f as [|f [IH1 IH2]]; split.
  - intros d o H. cbn in H. congruence.
  - intros d c i o acc H. rewrite decodeElements_S.
    cbn [decodeElements] in *. destruct (i <? c); [congruence|reflexivity].
  - intros d o H. cbn [decodeElement] in *.
    repeat branch; try reflexivity; try congruence.
    apply IH2. exact H.
  - intros d c i o acc H. rewrite !decodeElements_S in *.
    destruct (i <? c); [|reflexivity].
    destruct (decodeElement f d o) as [[elem bytesRead]|e|p|] eqn:E; try congruence.
    + rewrite IH1, E by congruence. apply IH2. exact H.
    + rewrite IH1, E by congruence. reflexivity.
    + rewrite IH1, E by congruence. reflexivity.
Qed.

Lemma decodeElement_fuel_le f f' d o :
  (f <= f')%nat -> decodeElement f d o <> OutOfFuel ->
  decodeElement f' d o = decodeElement f d o.
Proof.
  induction 1 as [|f' _ IH]; intros H; [reflexivity|].
  rewrite <- (IH H). apply decode_fuel_succ. rewrite (IH H). exact H.
Qed.

Lemma decodeElements_fuel_le f f' d c i o acc :
  (f <= f')%nat -> decodeElements f d c i o acc <> OutOfFuel ->
  decodeElements f' d c i o acc = decodeElements f d c i o acc.
Proof.
  induction 1 as [|f' _ IH]; intros H; [reflexivity|].
  rewrite <- (IH H). apply decode_fuel_succ. rewrite (IH H). exact H.
Qed.

(** ** The decoder: the cursor only moves forward *)

Lemma decodeVarint_loop_consumed d :
  forall i n s v c, decodeVarint_loop d i n s = Ok (v, c) -> i < c <= i + len d.
Proof.
  induction d as [|b rest IH]; intros i n s v c H; cbn [decodeVarint_loop] in H.
  - discriminate.
  - rewrite len_cons. pose proof (len_nonneg rest).
    destruct (9 <? i); [discriminate|].
    destruct (b <? 0x80).
    + injection H as _ <-. lia.
    + apply IH in H. lia.
Qed.

(** [decodeVarint] always returns: a value or an error. *)
Lemma decodeVarint_loop_returns d :
  forall i n s, decodeVarint_loop d i n s <> OutOfFuel /\
                forall p, decodeVarint_loop d i n s <> Panic p.
Proof.
  induction d as [|b rest IH]; intros i n s; cbn [decodeVarint_loop].
  - split; [discriminate|intros p; discriminate].
  - destruct (9 <? i); [split; [discriminate|intros p; discriminate]|].
    destruct (b <? 0x80); [split; [discriminate|intros p; discriminate]|].
    apply IH.
Qed.

Lemma decodeVarint_fuel d : decodeVarint d <> OutOfFuel.
Proof. apply decodeVarint_loop_returns. Qed.

Lemma decodeVarint_no_panic d p : decodeVarint d <> Panic p.
Proof. apply decodeVarint_loop_returns. Qed.

Lemma decodeVarint_consumed d v c :
  decodeVarint d = Ok (v, c) -> 0 < c <= len d.
Proof. intros H. apply decodeVarint_loop_consumed in H. lia. Qed.

Lemma decode_advances f :
  (forall d o v o', decodeElement f d o = Ok (v, o') -> o < o' /\ o < len d) /\
  (forall d c i o acc v o', decodeElements f d c i o acc = Ok (v, o') -> o <= o').
Proof.
  induction f as [|f [IH1 IH2]]; split.
  - intros d o v o' H. discriminate.
  - intros d c i o acc v o' H. cbn [decodeElements] in H.
    destruct (i <? c); [discriminate|]. injection H as _ <-. lia.
  - intros d o v o' H. cbn [decodeElement] in H. revert H.
    repeat branch; intros H; try discriminate;
      try (injection H as _ <-);
      repeat match goal with
        | E : decodeVarint _ = Ok _ |- _ => apply decodeVarint_consumed in E
        | E : (len d <=? o) = false |- _ => apply Z.leb_gt in E
        end; try lia.
    apply IH2 in H. lia.
  - intros d c i o acc v o' H. rewrite decodeElements_S in H.
    destruct (i <? c); [|injection H as _ <-; lia].
    destruct (decodeElement f d o) as [[elem bytesRead]|e|p|] eqn:E; try discriminate.
    apply IH1 in E. apply IH2 in H. lia.
Qed.

(** ** The decoder: twice the remaining input, plus two, is enough fuel *)

Lemma decode_fuel_enough f :
  (forall d o, 2 * Z.max 0 (len d - o) + 1 <= Z.of_nat f ->
               decodeElement f d o <> OutOfFuel) /\
  (forall d c i o acc, 2 * Z.max 0 (len d - o) + 2 <= Z.of_nat f ->
               decodeElements f d c i o acc <> OutOfFuel).
Proof.
  induction f as [|f [IH1 IH2]]; split.
  - intros d o H. lia.
  - intros d c i o acc H. lia.
  - intros d o H. cbn [decodeElement].
    repeat branch; try discriminate;
      try match goal with
        | E : decodeVarint ?x = OutOfFuel |- _ =>
            exfalso; exact (decodeVarint_fuel x E)
        end.
    apply IH2.
    match goal with
    | E : decodeVarint _ = Ok _ |- _ => apply decodeVarint_consumed in E
    end.
    match goal with
    | E : (len d <=? o) = false |- _ => apply Z.leb_gt in E
    end.
    lia.
  - intros d c i o acc H. rewrite decodeElements_S.
    destruct (i <? c); [|discriminate].
    pose proof (IH1 d o ltac:(lia)) as Hne.
    destruct (decodeElement f d o) as [[elem bytesRead]|e|p|] eqn:E;
      try discriminate; try congruence.
    apply IH2. apply (proj1 (decode_advances f)) in E. lia.
Qed.

(** A result reached with any amount of fuel is the one [decodeFuel]
    reaches. *)
Lemma decodeElement_at_decodeFuel f d r :
  decodeElement f d 0 = r -> r <> OutOfFuel ->
  decodeElement (decodeFuel d) d 0 = r.
Proof.
  intros Hr Hne. subst r.
  assert (Hd : decodeElement (decodeFuel d) d 0 <> OutOfFuel).
  { apply decode_fuel_enough. unfold decodeFuel, len. lia. }
  rewrite <- (decodeElement_fuel_le _ (Nat.max f (decodeFuel d)) d 0 (Nat.le_max_r _ _) Hd).
  apply decodeElement_fuel_le; [apply Nat.le_max_l|exact Hne].
Qed.

(** ** Slices of a buffer built by concatenation *)

Lemma index_app_len pre x rest : index (pre ++ x :: rest) (len pre) = x.
Proof. unfold index, len. rewrite Nat2Z.id. apply nth_middle. Qed.

Lemma from_app_len {A} (pre l : list A) : from (pre ++ l) (len pre) = l.
Proof.
  unfold from, len. rewrite Nat2Z.id, skipn_app, skipn_all, Nat.sub_diag.
  reflexivity.
Qed.

Lemma slice_app_len {A} (pre s suf : list A) :
  slice (pre ++ s ++ suf) (len pre) (len pre + len s) = s.
Proof.
  unfold slice. fold (from (pre ++ s ++ suf) (len pre)). rewrite from_app_len.
  replace (len pre + len s - len pre) with (len s) by ring.
  unfold len. rewrite Nat2Z.id, firstn_app, firstn_all, Nat.sub_diag.
  cbn [firstn]. apply app_nil_r.
Qed.

(** ** Encodings of the four shapes *)

Lemma encode_nil : encode VNil = [TypeNull].
Proof. reflexivity. Qed.

Lemma encode_string s :
  encode (VString s) = TypeString :: encodeVarint (uint64 (len s)) ++ s.
Proof. reflexivity. Qed.

Lemma encode_int32 i : encode (VInt32 i) = TypeInt32 :: PutUint32 (uint32 i).
Proof. reflexivity. Qed.

Lemma uint64_range x : 0 <= uint64 x < 2 ^ 64.
Proof. unfold uint64. apply Z.mod_pos_bound. lia. Qed.

Lemma uint32_range x : 0 <= uint32 x < 2 ^ 32.
Proof. unfold uint32. apply Z.mod_pos_bound. lia. Qed.

(** The four bytes written little-endian add up to the word. *)
Lemma PutUint32_sum u :
  0 <= u < 2 ^ 32 ->
  byte u + byte (Z.shiftr u 8) * 2 ^ 8 + byte (Z.shiftr u 16) * 2 ^ 16
  + byte (Z.shiftr u 24) * 2 ^ 24 = u.
Proof.
  intros Hu. unfold byte. rewrite !Z.shiftr_div_pow2 by lia.
  change (2 ^ 8) with 256. change (2 ^ 16) with 65536.
  change (2 ^ 24) with 16777216. change (2 ^ 32) with 4294967296 in Hu.
  Z.div_mod_to_equations. lia.
Qed.

Lemma Uint32_PutUint32 u : 0 <= u < 2 ^ 32 -> Uint32 (PutUint32 u) = u.
Proof.
  intros Hu. unfold Uint32, PutUint32.
  change (index [byte u; byte (Z.shiftr u 8); byte (Z.shiftr u 16); byte (Z.shiftr u 24)] 0)
    with (byte u).
  change (index [byte u; byte (Z.shiftr u 8); byte (Z.shiftr u 16); byte (Z.shiftr u 24)] 1)
    with (byte (Z.shiftr u 8)).
  change (index [byte u; byte (Z.shiftr u 8); byte (Z.shiftr u 16); byte (Z.shiftr u 24)] 2)
    with (byte (Z.shiftr u 16)).
  change (index [byte u; byte (Z.shiftr u 8); byte (Z.shiftr u 16); byte (Z.shiftr u 24)] 3)
    with (byte (Z.shiftr u 24)).
  pose proof (byte_range u) as H0.
  pose proof (byte_range (Z.shiftr u 8)) as H1.
  pose proof (byte_range (Z.shiftr u 16)) as H2.
  pose proof (byte_range (Z.shiftr u 24)) as H3.
  pose proof (PutUint32_sum u Hu) as Hs.
  change (2 ^ 8) with 256 in *. change (2 ^ 16) with 65536 in *.
  change (2 ^ 24) with 16777216 in *.
  rewrite (lor_shiftl_add (byte u)) by (change (2 ^ 8) with 256; lia).
  rewrite (lor_shiftl_add (byte u + _)) by (change (2 ^ 8) with 256; change (2 ^ 16) with 65536; lia).
  rewrite (lor_shiftl_add (byte u + _ + _))
    by (change (2 ^ 8) with 256; change (2 ^ 16) with 65536;
        change (2 ^ 24) with 16777216; lia).
  change (2 ^ 8) with 256. change (2 ^ 16) with 65536. change (2 ^ 24) with 16777216.
  rewrite Hs. unfold uint32. apply Z.mod_small. exact Hu.
Qed.

Lemma int32_uint32 i : - 2 ^ 31 <= i < 2 ^ 31 -> int32 (uint32 i) = i.
Proof.
  intros Hi. unfold int32, uint32.
  change (2 ^ 31) with 2147483648 in *. change (2 ^ 32) with 4294967296.
  destruct (Z.ltb_spec (i mod 4294967296) 2147483648);
    Z.div_mod_to_equations; lia.
Qed.

(** ** The decoder, branch by branch *)

Lemma from_app_len1 {A} (pre : list A) x rest :
  from (pre ++ x :: rest) (len pre + 1) = rest.
Proof.
  replace (len pre + 1) with (len (pre ++ [x])) by (rewrite len_app; reflexivity).
  change (x :: rest) with ([x] ++ rest). rewrite app_assoc. apply from_app_len.
Qed.

Lemma tag_in_range {A} (pre : list A) x rest :
  (len (pre ++ x :: rest) <=? len pre) = false.
Proof.
  apply Z.leb_gt. rewrite len_app, len_cons. pose proof (len_nonneg rest). lia.
Qed.

Lemma decodeElement_end f d o :
  len d <= o -> decodeElement (S f) d o = Err ErrUnexpectedEnd.
Proof.
  intros H. cbn [decodeElement]. destruct (Z.leb_spec (len d) o); [reflexivity|lia].
Qed.

Lemma decodeElement_null f pre rest :
  decodeElement (S f) (pre ++ TypeNull :: rest) (len pre) = Ok (VNil, len pre + 1).
Proof.
  cbn [decodeElement]. rewrite tag_in_range, index_app_len. reflexivity.
Qed.

Lemma decodeElement_unknown f pre tag rest :
  tag <> TypeString -> tag <> TypeInt32 -> tag <> TypeDataInput -> tag <> TypeNull ->
  decodeElement (S f) (pre ++ tag :: rest) (len pre) = Err (ErrUnknownTag tag).
Proof.
  intros H1 H2 H3 H4. cbn [decodeElement]. rewrite tag_in_range, index_app_len.
  destruct (Z.eqb_spec tag TypeString); [contradiction|].
  destruct (Z.eqb_spec tag TypeInt32); [contradiction|].
  destruct (Z.eqb_spec tag TypeDataInput); [contradiction|].
  destruct (Z.eqb_spec tag TypeNull); [contradiction|]. reflexivity.
Qed.

Lemma decodeElement_int32 f pre rest :
  decodeElement (S f) (pre ++ TypeInt32 :: rest) (len pre)
  = if len rest <? 4 then Err ErrInsufficientInt32
    else Ok (VInt32 (int32 (Uint32 (firstn 4 rest))), len pre + 1 + 4).
Proof.
  cbn [decodeElement]. rewrite tag_in_range, index_app_len.
  change (TypeInt32 =? TypeString) with false.
  change (TypeInt32 =? TypeInt32) with true. cbv iota.
  rewrite len_app, len_cons.
  destruct (Z.ltb_spec (len pre + (1 + len rest)) (len pre + 1 + 4));
    destruct (Z.ltb_spec (len rest) 4); try lia; try reflexivity.
  unfold slice. fold (from (pre ++ TypeInt32 :: rest) (len pre + 1)).
  rewrite from_app_len1.
  replace (len pre + 1 + 4 - (len pre + 1)) with 4 by ring. reflexivity.
Qed.

Lemma decodeElement_string f pre rest :
  decodeElement (S f) (pre ++ TypeString :: rest) (len pre)
  = match decodeVarint rest with
    | Ok (length, consumed) =>
        let offset := len pre + 1 + consumed in
        let hi := int_add offset (int length) in
        if len (pre ++ TypeString :: rest) <? hi then Err ErrStringLength
        else if hi <? offset then Panic (SliceBoundsOutOfRange offset hi)
        else
          let str := slice (pre ++ TypeString :: rest) offset hi in
          if negb (ValidString str) then Err ErrInvalidUTF8
          else Ok (VString str, hi)
    | Err e => Err e
    | Panic p => Panic p
    | OutOfFuel => OutOfFuel
    end.
Proof.
  cbn [decodeElement]. rewrite tag_in_range, index_app_len, from_app_len1.
  reflexivity.
Qed.

Lemma decodeElement_list f pre rest :
  decodeElement (S f) (pre ++ TypeDataInput :: rest) (len pre)
  = match decodeVarint rest with
    | Ok (count, consumed) =>
        if maxAlloc <? ifaceSize * count
        then Panic (MakesliceCapOutOfRange count)
        else decodeElements f (pre ++ TypeDataInput :: rest) (int count) 0
               (len pre + 1 + consumed) []
    | Err e => Err e
    | Panic p => Panic p
    | OutOfFuel => OutOfFuel
    end.
Proof.
  cbn [decodeElement]. rewrite tag_in_range, index_app_len, from_app_len1.
  reflexivity.
Qed.

(** ** Decoding an encoding that sits anywhere in a buffer *)

Lemma slice_at {A} (front s suf : list A) o :
  o = len front -> slice (front ++ s ++ suf) o (o + len s) = s.
Proof. intros ->. apply slice_app_len. Qed.

Lemma len_PutUint32 u : len (PutUint32 u) = 4.
Proof. reflexivity. Qed.

Lemma len_concat_cons (x : list Z) xs : len (concat (x :: xs)) = len x + len (concat xs).
Proof. cbn [concat]. apply len_app. Qed.

(** The element loop over the encodings of [xs], each of which decodes
    back wherever it sits. *)
Lemma decodeElements_encode xs :
  Forall (fun x => forall pre suf, len pre + len (encode x) <= maxInt ->
            exists f, decodeElement f (pre ++ encode x ++ suf) (len pre)
                      = Ok (x, len pre + len (encode x))) xs ->
  forall pre suf count i done,
    i + len xs = count ->
    len pre + len (concat (map encode xs)) <= maxInt ->
    exists f, decodeElements f (pre ++ concat (map encode xs) ++ suf) count i (len pre) done
              = Ok (VDataInput (done ++ xs), len pre + len (concat (map encode xs))).
Proof.
  induction 1 as [|x xs Hx _ IH]; intros pre suf count i done Hc Hfit.
  - exists O. change (len (@nil value)) with 0 in Hc.
    rewrite decodeElements_done by lia.
    cbn [map concat]. change (len (@nil Z)) with 0.
    rewrite app_nil_r, Z.add_0_r. reflexivity.
  - rewrite len_cons in Hc. cbn [map] in *. rewrite len_concat_cons in *.
    pose proof (len_nonneg xs). pose proof (len_nonneg (concat (map encode xs))).
    pose proof (len_nonneg (encode x)).
    destruct (Hx pre (concat (map encode xs) ++ suf) ltac:(lia)) as [f1 Hd1].
    destruct (IH (pre ++ encode x) suf count (i + 1) (done ++ [x]) ltac:(lia)
                ltac:(rewrite len_app; lia)) as [f2 Hd2].
    exists (S (Nat.max f1 f2)). rewrite decodeElements_S.
    destruct (Z.ltb_spec i count); [|lia].
    cbn [concat]. rewrite <- (app_assoc (encode x)).
    rewrite (decodeElement_fuel_le f1) by (try apply Nat.le_max_l; congruence).
    rewrite Hd1.
    rewrite <- (app_assoc pre (encode x)) in Hd2. rewrite len_app in Hd2.
    rewrite (decodeElements_fuel_le f2) by (try apply Nat.le_max_r; congruence).
    rewrite Hd2, <- app_assoc, Z.add_assoc. reflexivity.
Qed.

Lemma decodeElement_encode v :
  model_value v = true ->
  forall pre suf, len pre + len (encode v) <= maxInt ->
    exists f, decodeElement f (pre ++ encode v ++ suf) (len pre)
              = Ok (v, len pre + len (encode v)).
Proof.
  induction v as [|s|i|l IH|ty] using value_ind'; cbn [model_value];
    intros Hm pre suf Hfit; try discriminate.
  - exists 1%nat. rewrite encode_nil. cbn [app].
    rewrite decodeElement_null. reflexivity.
  - apply andb_true_iff in Hm as [_ Hv].
    rewrite encode_string in *. rewrite len_cons, len_app in *.
    pose proof (len_nonneg pre). pose proof (len_nonneg s).
    pose proof (len_nonneg (encodeVarint (uint64 (len s)))).
    assert (Hu : uint64 (len s) = len s)
      by (apply uint64_small; unfold maxInt in Hfit; lia).
    exists 1%nat. cbn [app]. rewrite <- app_assoc, decodeElement_string.
    rewrite decodeVarint_encodeVarint_app by apply uint64_range.
    cbv zeta. rewrite Hu in *.
    rewrite int_small, int_add_small by lia.
    rewrite len_app, len_cons, !len_app.
    pose proof (len_nonneg suf).
    destruct (Z.ltb_spec (len pre + (1 + (len (encodeVarint (len s)) + (len s + len suf))))
                (len pre + 1 + len (encodeVarint (len s)) + len s)); [lia|].
    destruct (Z.ltb_spec (len pre + 1 + len (encodeVarint (len s)) + len s)
                (len pre + 1 + len (encodeVarint (len s)))); [lia|].
    change (pre ++ TypeString :: encodeVarint (len s) ++ s ++ suf)
      with (pre ++ (TypeString :: encodeVarint (len s)) ++ s ++ suf).
    rewrite (app_assoc pre).
    rewrite slice_at by (rewrite len_app, len_cons; ring).
    rewrite Hv. cbn [negb]. f_equal. f_equal. ring.
  - exists 1%nat. rewrite encode_int32. cbn [app].
    rewrite decodeElement_int32, len_app, len_PutUint32.
    pose proof (len_nonneg suf).
    destruct (Z.ltb_spec (4 + len suf) 4); [lia|].
    change (firstn 4 (PutUint32 (uint32 i) ++ suf)) with (PutUint32 (uint32 i)).
    rewrite Uint32_PutUint32 by apply uint32_range.
    rewrite int32_uint32 by (apply andb_true_iff in Hm as [H1 H2]; lia).
    rewrite len_cons, len_PutUint32. f_equal. f_equal. ring.
  - apply andb_true_iff in Hm as [Ha Hall]. apply Z.leb_le in Ha.
    assert (He : forallb encodable l = true).
    { clear - Hall. induction l as [|x xs IHl]; [reflexivity|].
      cbn [forallb] in *. apply andb_true_iff in Hall as [H1 H2].
      rewrite (model_value_encodable x H1), (IHl H2). reflexivity. }
    rewrite (encode_data l He) in *. rewrite len_cons, len_app in *.
    pose proof (len_nonneg pre). pose proof (len_nonneg l).
    pose proof (len_nonneg (encodeVarint (uint64 (len l)))).
    pose proof (len_nonneg (concat (map encode l))).
    assert (Hu : uint64 (len l) = len l)
      by (apply uint64_small; unfold ifaceSize, maxAlloc in Ha; lia).
    rewrite Hu in *.
    assert (Hall' : Forall (fun x => forall pre suf, len pre + len (encode x) <= maxInt ->
                      exists f, decodeElement f (pre ++ encode x ++ suf) (len pre)
                                = Ok (x, len pre + len (encode x))) l).
    { clear - IH Hall. induction IH as [|x xs Hx _ IHxs]; [constructor|].
      cbn [forallb] in Hall. apply andb_true_iff in Hall as [H1 H2].
      constructor; [exact (Hx H1)|exact (IHxs H2)]. }
    destruct (decodeElements_encode l Hall'
                (pre ++ TypeDataInput :: encodeVarint (len l)) suf (len l) 0 []
                ltac:(lia) ltac:(rewrite len_app, len_cons; lia)) as [f Hf].
    exists (S f). cbn [app]. rewrite <- app_assoc, decodeElement_list.
    rewrite decodeVarint_encodeVarint_app by (rewrite <- Hu; apply uint64_range).
    destruct (Z.ltb_spec maxAlloc (ifaceSize * len l)); [lia|].
    rewrite int_small by (unfold ifaceSize, maxAlloc, maxInt in *; lia).
    rewrite <- app_assoc in Hf. cbn [app] in Hf.
    rewrite len_app, len_cons in Hf.
    replace (len pre + 1 + len (encodeVarint (len l)))
      with (len pre + (1 + len (encodeVarint (len l)))) by ring.
    rewrite Hf. f_equal. f_equal. ring.
Qed.

(** ** Decoding an encoding that was cut short *)

(** Every byte of a varint but the last is a continuation byte, and there
    are at most nine of them: a proper prefix ends mid-varint. *)
Lemma decodeVarint_loop_truncated slots :
  forall n k i acc sh,
    (k < length (encodeVarint_loop slots n))%nat ->
    0 <= i -> i + Z.of_nat slots <= 10 ->
    decodeVarint_loop (firstn k (encodeVarint_loop slots n)) i acc sh
    = Err ErrIncompleteVarint.
Proof.
  induction slots as [|slots IH]; intros n k i acc sh Hk Hi Hs.
  - cbn in Hk. lia.
  - cbn [encodeVarint_loop] in *.
    destruct (0x80 <=? n).
    + destruct k as [|k]; [reflexivity|].
      cbn [length] in Hk. cbn [firstn decodeVarint_loop].
      pose proof (cont_byte_range n).
      destruct (Z.ltb_spec 9 i); [lia|].
      destruct (Z.ltb_spec (Z.lor (byte n) 0x80) 0x80); [lia|].
      apply IH; lia.
    + cbn [length] in Hk. destruct k as [|k]; [reflexivity|lia].
Qed.

Lemma decodeVarint_truncated n k :
  (k < length (encodeVarint n))%nat ->
  decodeVarint (firstn k (encodeVarint n)) = Err ErrIncompleteVarint.
Proof.
  intros Hk. apply decodeVarint_loop_truncated; [exact Hk|lia|simpl; lia].
Qed.

Lemma len_firstn_lt {A} k (l : list A) :
  (k < length l)%nat -> len (firstn k l) = Z.of_nat k.
Proof. intros H. unfold len. rewrite length_firstn. lia. Qed.

Lemma firstn_app_short {A} k (l1 l2 : list A) :
  (k < length l1)%nat -> firstn k (l1 ++ l2) = firstn k l1.
Proof.
  intros H. rewrite firstn_app.
  replace (k - length l1)%nat with O by lia. cbn [firstn]. apply app_nil_r.
Qed.

Lemma firstn_app_long {A} k (l1 l2 : list A) :
  (length l1 <= k)%nat -> firstn k (l1 ++ l2) = l1 ++ firstn (k - length l1) l2.
Proof. intros H. rewrite firstn_app, firstn_all2 by exact H. reflexivity. Qed.

Lemma decodeElements_truncated xs :
  Forall (fun x => model_value x = true /\
            forall pre k, (k < length (encode x))%nat ->
              len pre + len (encode x) <= maxInt ->
              exists f e, decodeElement f (pre ++ firstn k (encode x)) (len pre) = Err e
                          /\ truncated_input e = true) xs ->
  forall pre count i done k,
    i + len xs <= count ->
    (k < length (concat (map encode xs)))%nat ->
    len pre + len (concat (map encode xs)) <= maxInt ->
    exists f e,
      decodeElements f (pre ++ firstn k (concat (map encode xs))) count i (len pre) done
      = Err e /\ truncated_input e = true.
Proof.
  induction 1 as [|x xs [Hm Hx] _ IH]; intros pre count i done k Hc Hk Hfit.
  - cbn in Hk. lia.
  - rewrite len_cons in Hc. cbn [map concat] in *.
    rewrite len_app in Hfit. rewrite length_app in Hk.
    pose proof (len_nonneg xs). pose proof (len_nonneg (concat (map encode xs))).
    pose proof (len_nonneg (encode x)).
    destruct (Nat.lt_ge_cases k (length (encode x))) as [Hlt|Hge].
    + rewrite firstn_app_short by exact Hlt.
      destruct (Hx pre k Hlt ltac:(lia)) as (f & e & Hd & He).
      exists (S f), e. rewrite decodeElements_S.
      destruct (Z.ltb_spec i count); [|lia].
      rewrite Hd. auto.
    + rewrite firstn_app_long by exact Hge.
      destruct (decodeElement_encode x Hm pre
                  (firstn (k - length (encode x)) (concat (map encode xs)))
                  ltac:(lia)) as [f1 Hd1].
      destruct (IH (pre ++ encode x) count (i + 1) (done ++ [x])
                  (k - length (encode x))%nat ltac:(lia) ltac:(lia)
                  ltac:(rewrite len_app; lia)) as (f2 & e & Hd2 & He).
      exists (S (Nat.max f1 f2)), e. rewrite decodeElements_S.
      destruct (Z.ltb_spec i count); [|lia].
      rewrite (decodeElement_fuel_le f1) by (try apply Nat.le_max_l; congruence).
      rewrite Hd1.
      rewrite <- app_assoc, len_app in Hd2.
      rewrite (decodeElements_fuel_le f2) by (try apply Nat.le_max_r; congruence).
      auto.
Qed.

Lemma decodeElement_truncated v :
  model_value v = true ->
  forall pre k, (k < length (encode v))%nat ->
    len pre + len (encode v) <= maxInt ->
    exists f e, decodeElement f (pre ++ firstn k (encode v)) (len pre) = Err e
                /\ truncated_input e = true.
Proof.
  induction v as [|s|i|l IH|ty] using value_ind'; cbn [model_value];
    intros Hm pre k Hk Hfit; try discriminate;
    (destruct k as [|k];
     [ exists 1%nat, ErrUnexpectedEnd; cbn [firstn]; rewrite app_nil_r;
       rewrite decodeElement_end by lia; auto | ]).
  - cbn in Hk. lia.
  - rewrite encode_string in *. cbn [length] in Hk. rewrite length_app in Hk.
    rewrite len_cons, len_app in Hfit.
    pose proof (len_nonneg pre). pose proof (len_nonneg s).
    pose proof (len_nonneg (encodeVarint (uint64 (len s)))).
    assert (Hu : uint64 (len s) = len s)
      by (apply uint64_small; unfold maxInt in Hfit; lia).
    rewrite Hu in *.
    exists 1%nat. cbn [firstn]. rewrite decodeElement_string.
    destruct (Nat.lt_ge_cases k (length (encodeVarint (len s)))) as [Hlt|Hge].
    + rewrite firstn_app_short, decodeVarint_truncated by exact Hlt.
      exists ErrIncompleteVarint. auto.
    + rewrite firstn_app_long by exact Hge.
      rewrite decodeVarint_encodeVarint_app by (rewrite <- Hu; apply uint64_range).
      cbv zeta. rewrite int_small, int_add_small by lia.
      rewrite len_app, len_cons, len_app, len_firstn_lt by lia.
      exists ErrStringLength.
      destruct (Z.ltb_spec
                  (len pre + (1 + (len (encodeVarint (len s))
                       + Z.of_nat (k - length (encodeVarint (len s))))))
                  (len pre + 1 + len (encodeVarint (len s)) + len s)); [auto|].
      unfold len in *. lia.
  - rewrite encode_int32 in *. cbn [length PutUint32] in Hk.
    exists 1%nat, ErrInsufficientInt32. cbn [firstn].
    rewrite decodeElement_int32, len_firstn_lt by (cbn [length PutUint32]; lia).
    destruct (Z.ltb_spec (Z.of_nat k) 4); [auto|lia].
  - apply andb_true_iff in Hm as [Ha Hall]. apply Z.leb_le in Ha.
    assert (He : forallb encodable l = true).
    { clear - Hall. induction l as [|x xs IHl]; [reflexivity|].
      cbn [forallb] in *. apply andb_true_iff in Hall as [H1 H2].
      rewrite (model_value_encodable x H1), (IHl H2). reflexivity. }
    rewrite (encode_data l He) in *. cbn [length] in Hk. rewrite length_app in Hk.
    rewrite len_cons, len_app in Hfit.
    pose proof (len_nonneg pre). pose proof (len_nonneg l).
    pose proof (len_nonneg (encodeVarint (uint64 (len l)))).
    pose proof (len_nonneg (concat (map encode l))).
    assert (Hu : uint64 (len l) = len l)
      by (apply uint64_small; unfold ifaceSize, maxAlloc in Ha; lia).
    rewrite Hu in *.
    cbn [firstn].
    destruct (Nat.lt_ge_cases k (length (encodeVarint (len l)))) as [Hlt|Hge].
    + exists 1%nat, ErrIncompleteVarint.
      rewrite decodeElement_list, firstn_app_short, decodeVarint_truncated by exact Hlt.
      auto.
    + assert (Hall' : Forall (fun x => model_value x = true /\
                forall pre k, (k < length (encode x))%nat ->
                  len pre + len (encode x) <= maxInt ->
                  exists f e, decodeElement f (pre ++ firstn k (encode x)) (len pre) = Err e
                              /\ truncated_input e = true) l).
      { clear - IH Hall. induction IH as [|x xs Hx _ IHxs]; [constructor|].
        cbn [forallb] in Hall. apply andb_true_iff in Hall as [H1 H2].
        constructor; [split; [exact H1|exact (Hx H1)]|exact (IHxs H2)]. }
      destruct (decodeElements_truncated l Hall'
                  (pre ++ TypeDataInput :: encodeVarint (len l)) (len l) 0 []
                  (k - length (encodeVarint (len l)))%nat
                  ltac:(lia) ltac:(lia) ltac:(rewrite len_app, len_cons; lia))
        as (f & e & Hd & Htr).
      exists (S f), e. rewrite firstn_app_long by exact Hge.
      rewrite decodeElement_list.
      rewrite decodeVarint_encodeVarint_app by (rewrite <- Hu; apply uint64_range).
      destruct (Z.ltb_spec maxAlloc (ifaceSize * len l)); [lia|].
      rewrite int_small by (unfold ifaceSize, maxAlloc, maxInt in *; lia).
      rewrite <- app_assoc in Hd. cbn [app] in Hd.
      rewrite len_app, len_cons in Hd.
      replace (len pre + 1 + len (encodeVarint (len l)))
        with (len pre + (1 + len (encodeVarint (len l)))) by ring.
      auto.
Qed.

(** ** Structural comparison *)

Lemma bytes_eqb_refl s : bytes_eqb s s = true.
Proof. induction s as [|b s IH]; cbn [bytes_eqb]; [|rewrite Z.eqb_refl, IH]; reflexivity. Qed.

Lemma compareDataInput_refl v : encodable v = true -> compareDataInput v v = true.
Proof.
  induction v as [|s|i|l IH|ty] using value_ind'; cbn [encodable compareDataInput];
    intros He; try reflexivity; try discriminate.
  - apply bytes_eqb_refl.
  - apply Z.eqb_refl.
  - rewrite Z.eqb_refl. cbn [negb].
    induction IH as [|x xs Hx _ IHxs]; [reflexivity|].
    cbn [forallb] in He. apply andb_true_iff in He as [H1 H2].
    rewrite (Hx H1). cbn [negb]. exact (IHxs H2).
Qed.

(** * The claims *)

(** From the top of a buffer that starts with an encoding. *)
Lemma decodeElement_encode_top v t :
  model_value v = true ->
  len (encode v) <= maxInt ->
  decodeElement (decodeFuel (encode v ++ t)) (encode v ++ t) 0 = Ok (v, len (encode v)).
Proof.
  intros Hm Hfit.
  destruct (decodeElement_encode v Hm [] t Hfit) as [f Hf].
  cbn [app] in Hf. change (len (@nil Z)) with 0 in Hf. rewrite Z.add_0_l in Hf.
  apply decodeElement_at_decodeFuel in Hf; [exact Hf|discriminate].
Qed.

(** C1: for every value [v] of the model (nil, a valid UTF-8 string, an
    int32, or a [*DataInput] of such values at any depth) whose encoding
    fits a Go string, [decodeElement] on [encode v] succeeds with [v]
    having read all of it, and [decode (encode v)] returns a value that
    [compareDataInput] finds equal to [v]. *)
Theorem round_trip (v : value) :
  model_value v = true ->
  len (encode v) <= maxInt ->
  decodeElement (decodeFuel (encode v)) (encode v) 0 = Ok (v, len (encode v)) /\
  exists r, decode (encode v) = Ok r /\ compareDataInput v r = true.
Proof.
  intros Hm Hfit.
  pose proof (decodeElement_encode_top v [] Hm Hfit) as Hf.
  rewrite app_nil_r in Hf.
  split; [exact Hf|].
  exists v. unfold decode. rewrite Hf.
  split; [reflexivity|]. apply compareDataInput_refl, model_value_encodable, Hm.
Qed.

Lemma round_trip_witness :
  let v := NewDataInput [VString (bytes_of_string "foo"%string);
                         NewDataInput [VNil; VInt32 (-42)]] in
  decodeElement (decodeFuel (encode v)) (encode v) 0 = Ok (v, len (encode v)) /\
  exists r, decode (encode v) = Ok r /\ compareDataInput v r = true.
Proof.
  apply (round_trip (NewDataInput [VString (bytes_of_string "foo"%string);
                                   NewDataInput [VNil; VInt32 (-42)]])).
  - vm_compute. reflexivity.
  - vm_compute. discriminate.
Defined.

(** C6: bytes after a complete top-level value are not read: for every
    model value [v] and every [t], decoding [encode v ++ t] succeeds with
    [v], stops right after the encoding, and [decode] returns what it
    returns without [t]. *)
Theorem trailing_bytes_ignored (v : value) (t : list Z) :
  model_value v = true ->
  len (encode v) <= maxInt ->
  decodeElement (decodeFuel (encode v ++ t)) (encode v ++ t) 0 = Ok (v, len (encode v)) /\
  decode (encode v ++ t) = decode (encode v) /\
  exists r, decode (encode v ++ t) = Ok r /\ compareDataInput v r = true.
Proof.
  intros Hm Hfit.
  pose proof (decodeElement_encode_top v t Hm Hfit) as Hf.
  pose proof (decodeElement_encode_top v [] Hm Hfit) as H0.
  rewrite app_nil_r in H0.
  split; [exact Hf|]. unfold decode. rewrite Hf, H0.
  split; [reflexivity|]. exists v.
  split; [reflexivity|]. apply compareDataInput_refl, model_value_encodable, Hm.
Qed.

Lemma trailing_bytes_ignored_witness :
  let v := NewDataInput [VString (bytes_of_string "bar"%string); VInt32 42] in
  let t := [0x7F; 0xFF; 0x03] in
  decodeElement (decodeFuel (encode v ++ t)) (encode v ++ t) 0 = Ok (v, len (encode v)) /\
  decode (encode v ++ t) = decode (encode v) /\
  exists r, decode (encode v ++ t) = Ok r /\ compareDataInput v r = true.
Proof.
  apply (trailing_bytes_ignored
           (NewDataInput [VString (bytes_of_string "bar"%string); VInt32 42])
           [0x7F; 0xFF; 0x03]).
  - vm_compute. reflexivity.
  - vm_compute. discriminate.
Defined.

(** C5: for every model value [v] whose encoding fits a Go string and
    every proper non-empty prefix [p] of [encode v], [decodeElement] on [p]
    fails, and the error is one of the truncated-input kinds.  (A bare nil
    encodes to one byte and has no such prefix.) *)
Theorem truncation_detected (v : value) (k : nat) :
  model_value v = true ->
  len (encode v) <= maxInt ->
  (0 < k < length (encode v))%nat ->
  exists e,
    decodeElement (decodeFuel (firstn k (encode v))) (firstn k (encode v)) 0 = Err e /\
    truncated_input e = true.
Proof.
  intros Hm Hfit [_ Hk].
  destruct (decodeElement_truncated v Hm [] k Hk Hfit) as (f & e & Hf & He).
  cbn [app] in Hf. change (len (@nil Z)) with 0 in Hf.
  apply decodeElement_at_decodeFuel in Hf; [|discriminate].
  exists e. auto.
Qed.

Lemma truncation_detected_witness :
  let v := NewDataInput [VString (bytes_of_string "test"%string); VInt32 42] in
  exists e,
    decodeElement (decodeFuel (firstn 6 (encode v))) (firstn 6 (encode v)) 0 = Err e /\
    truncated_input e = true.
Proof.
  apply (truncation_detected
           (NewDataInput [VString (bytes_of_string "test"%string); VInt32 42]) 6).
  - vm_compute. reflexivity.
  - vm_compute. discriminate.
  - vm_compute. split; apply Nat.leb_le; reflexivity.
Defined.

(** C8: for every int32 [i], [encode] gives the tag 0x02 and exactly four
    bytes whose little-endian value is the two's-complement pattern of [i]
    ([i mod 2^32]); decoding gives back exactly [i].  The four boundary
    values are spelled out. *)
Theorem int32_layout (i : Z) :
  - 2 ^ 31 <= i < 2 ^ 31 ->
  (exists b0 b1 b2 b3,
      encode (VInt32 i) = [0x02; b0; b1; b2; b3] /\
      is_byte b0 && is_byte b1 && is_byte b2 && is_byte b3 = true /\
      b0 + b1 * 2 ^ 8 + b2 * 2 ^ 16 + b3 * 2 ^ 24 = i mod 2 ^ 32) /\
  len (encode (VInt32 i)) = 5 /\
  decodeElement (decodeFuel (encode (VInt32 i))) (encode (VInt32 i)) 0 = Ok (VInt32 i, 5) /\
  decode (encode (VInt32 i)) = Ok (VInt32 i) /\
  encode (VInt32 0) = [0x02; 0x00; 0x00; 0x00; 0x00] /\
  encode (VInt32 (-1)) = [0x02; 0xFF; 0xFF; 0xFF; 0xFF] /\
  encode (VInt32 2147483647) = [0x02; 0xFF; 0xFF; 0xFF; 0x7F] /\
  encode (VInt32 (-2147483648)) = [0x02; 0x00; 0x00; 0x00; 0x80].
Proof.
  intros Hi.
  assert (Hm : model_value (VInt32 i) = true).
  { cbn [model_value]. apply andb_true_iff. split; [apply Z.leb_le|apply Z.ltb_lt]; lia. }
  assert (Hfit : len (encode (VInt32 i)) <= maxInt) by (vm_compute; discriminate).
  pose proof (decodeElement_encode_top (VInt32 i) [] Hm Hfit) as Hd.
  rewrite app_nil_r in Hd.
  split; [|split; [reflexivity|split; [exact Hd|]]].
  - exists (byte (uint32 i)), (byte (Z.shiftr (uint32 i) 8)),
      (byte (Z.shiftr (uint32 i) 16)), (byte (Z.shiftr (uint32 i) 24)).
    split; [reflexivity|]. split.
    + unfold is_byte.
      pose proof (byte_range (uint32 i)).
      pose proof (byte_range (Z.shiftr (uint32 i) 8)).
      pose proof (byte_range (Z.shiftr (uint32 i) 16)).
      pose proof (byte_range (Z.shiftr (uint32 i) 24)).
      rewrite !andb_true_iff, !Z.leb_le, !Z.ltb_lt. lia.
    + apply PutUint32_sum, uint32_range.
  - unfold decode. rewrite Hd. repeat split; reflexivity.
Qed.

Lemma int32_layout_witness :
  let i := -12345 in
  (exists b0 b1 b2 b3,
      encode (VInt32 i) = [0x02; b0; b1; b2; b3] /\
      is_byte b0 && is_byte b1 && is_byte b2 && is_byte b3 = true /\
      b0 + b1 * 2 ^ 8 + b2 * 2 ^ 16 + b3 * 2 ^ 24 = i mod 2 ^ 32) /\
  len (encode (VInt32 i)) = 5 /\
  decodeElement (decodeFuel (encode (VInt32 i))) (encode (VInt32 i)) 0 = Ok (VInt32 i, 5) /\
  decode (encode (VInt32 i)) = Ok (VInt32 i) /\
  encode (VInt32 0) = [0x02; 0x00; 0x00; 0x00; 0x00] /\
  encode (VInt32 (-1)) = [0x02; 0xFF; 0xFF; 0xFF; 0xFF] /\
  encode (VInt32 2147483647) = [0x02; 0xFF; 0xFF; 0xFF; 0x7F] /\
  encode (VInt32 (-2147483648)) = [0x02; 0x00; 0x00; 0x00; 0x80].
Proof. apply (int32_layout (-12345)). lia. Defined.

(** The four boundary values also come back exactly. *)
Example int32_boundaries_decode :
  map (fun i => decode (encode (VInt32 i))) [0; -1; 2147483647; -2147483648]
  = map (fun i => Ok (VInt32 i)) [0; -1; 2147483647; -2147483648].
Proof. vm_compute. reflexivity. Qed.

(** C2: [decode] does not return on every input.  A string length of
    2^64-1 becomes -1 as an [int], passes the length check and makes the
    slice expression panic; an element count of 2^64-1 makes the slice
    allocation panic. *)
Theorem decode_panics_on_huge_length :
  decode [0x01; 0xFF; 0xFF; 0xFF; 0xFF; 0xFF; 0xFF; 0xFF; 0xFF; 0xFF; 0x01]
  = Panic (SliceBoundsOutOfRange 11 10) /\
  decode [0x01; 0xFF; 0xFF; 0xFF; 0xFF; 0xFF; 0xFF; 0xFF; 0xFF; 0x7F]
  = Panic (SliceBoundsOutOfRange 10 (- 2 ^ 63 + 9)) /\
  decode [0x03; 0xFF; 0xFF; 0xFF; 0xFF; 0xFF; 0xFF; 0xFF; 0xFF; 0xFF; 0x01]
  = Panic (MakesliceCapOutOfRange (2 ^ 64 - 1)).
Proof. repeat split; vm_compute; reflexivity. Qed.




(** One input for each way parsing fails, and what [decodeElement]
    reports for it. *)
Example decodeElement_error_kinds :
  let run d := decodeElement (decodeFuel d) d 0 in
  run [] = Err ErrUnexpectedEnd /\
  run [0x02; 0x2A; 0x00] = Err ErrInsufficientInt32 /\
  run [0x01; 0x05; 0x61] = Err ErrStringLength /\
  run [0x01; 0x80] = Err ErrIncompleteVarint /\
  run [0x01; 0x80; 0x80; 0x80; 0x80; 0x80; 0x80; 0x80; 0x80; 0x80; 0x80; 0x00]
  = Err ErrVarintTooLong /\
  run [0x01; 0x01; 0x80] = Err ErrInvalidUTF8 /\
  run [0x7F] = Err (ErrUnknownTag 0x7F).
Proof. vm_compute. repeat split; reflexivity. Qed.

(** [decode] itself always comes to an end: with a value or a panic. *)
Lemma decode_fuel data : decode data <> OutOfFuel.
Proof.
  unfold decode.
  assert (H : decodeElement (decodeFuel data) data 0 <> OutOfFuel).
  { apply decode_fuel_enough. unfold decodeFuel, len. lia. }
  destruct (decodeElement (decodeFuel data) data 0) as [[v o]|e|p|];
    try discriminate. congruence.
Qed.

(** * Further properties of the codec *)

(** ** Varints: what the decoder accepts *)

Lemma log2_below a k : 0 < k -> 0 <= a < 2 ^ k -> Z.log2 a < k.
Proof.
  intros Hk Ha. destruct (Z.eq_dec a 0) as [->|]; [exact Hk|].
  apply Z.log2_lt_pow2; lia.
Qed.

Lemma lor_below a b k :
  0 <= k -> 0 <= a < 2 ^ k -> 0 <= b < 2 ^ k -> 0 <= Z.lor a b < 2 ^ k.
Proof.
  intros Hk Ha Hb. split; [apply Z.lor_nonneg; lia|].
  destruct (Z.eq_dec k 0) as [->|Hk0].
  - change (2 ^ 0) with 1 in *. replace a with 0 by lia. replace b with 0 by lia.
    reflexivity.
  - destruct (Z.eq_dec (Z.lor a b) 0) as [->|Hne]; [apply Z.pow_pos_nonneg; lia|].
    assert (0 <= Z.lor a b) by (apply Z.lor_nonneg; lia).
    apply Z.log2_lt_pow2; [lia|].
    rewrite Z.log2_lor by lia.
    pose proof (log2_below a k ltac:(lia) Ha).
    pose proof (log2_below b k ltac:(lia) Hb). lia.
Qed.

Lemma low7_range b : 0 <= Z.land b 0x7F < 128.
Proof.
  assert (H : 0 <= Z.land b 0x7F) by (apply Z.land_nonneg; lia).
  split; [exact H|].
  change 0x7F with (Z.ones 7). rewrite Z.land_ones by lia.
  apply Z.mod_pos_bound. lia.
Qed.

Lemma uint64_le x : 0 <= x -> 0 <= uint64 x <= x.
Proof.
  intros H. unfold uint64. split; [apply Z.mod_pos_bound; lia|].
  apply Z.mod_le; lia.
Qed.

(** The accumulator after byte [i] holds at most [7 * (i + 1)] bits, and
    never more than 64. *)
Lemma decodeVarint_loop_bounds d :
  forall i n v c,
    0 <= i -> 0 <= n < 2 ^ (7 * i) -> n < 2 ^ 64 ->
    decodeVarint_loop d i n (7 * i) = Ok (v, c) ->
    i < c <= 10 /\ c <= i + len d /\ 0 <= v < 2 ^ (7 * c) /\ v < 2 ^ 64.
Proof.
  induction d as [|b rest IH]; intros i n v c Hi Hn Hn64 H;
    cbn [decodeVarint_loop] in H; [discriminate|].
  rewrite len_cons. pose proof (len_nonneg rest).
  destruct (Z.ltb_spec 9 i); [discriminate|].
  pose proof (low7_range b) as Hb.
  assert (HP : 0 < 2 ^ (7 * i)) by (apply Z.pow_pos_nonneg; lia).
  pose proof (pow7_succ i Hi) as HS.
  assert (Hsh : 0 <= Z.shiftl (Z.land b 0x7F) (7 * i) < 2 ^ (7 * (i + 1))).
  { rewrite Z.shiftl_mul_pow2, HS by lia. split; [apply Z.mul_nonneg_nonneg; lia|].
    rewrite (Z.mul_comm (2 ^ (7 * i))). apply Z.mul_lt_mono_pos_r; lia. }
  pose proof (uint64_le _ (proj1 Hsh)) as Hu.
  pose proof (uint64_range (Z.shiftl (Z.land b 0x7F) (7 * i))) as Hu64.
  assert (Hacc : 0 <= Z.lor n (uint64 (Z.shiftl (Z.land b 0x7F) (7 * i)))
                 < 2 ^ (7 * (i + 1))).
  { apply lor_below; lia. }
  assert (Hacc64 : Z.lor n (uint64 (Z.shiftl (Z.land b 0x7F) (7 * i))) < 2 ^ 64)
    by (apply lor_below; lia).
  destruct (b <? 0x80).
  - assert (Hv : v = Z.lor n (uint64 (Z.shiftl (Z.land b 0x7F) (7 * i)))) by congruence.
    assert (Hc : c = i + 1) by congruence.
    subst v c. split; [lia|split; [lia|split; lia]].
  - replace (7 * i + 7) with (7 * (i + 1)) in H by ring.
    apply IH in H; try lia.
Qed.

Lemma decodeVarint_loop_prefix d :
  forall i n s v c, decodeVarint_loop d i n s = Ok (v, c) ->
    forall t, decodeVarint_loop (firstn (Z.to_nat (c - i)) d ++ t) i n s = Ok (v, c).
Proof.
  induction d as [|b rest IH]; intros i n s v c H t;
    cbn [decodeVarint_loop] in H; [discriminate|].
  pose proof (decodeVarint_loop_consumed (b :: rest) i n s v c) as Hc.
  cbn [decodeVarint_loop] in Hc. specialize (Hc H).
  replace (Z.to_nat (c - i)) with (S (Z.to_nat (c - (i + 1)))) by lia.
  cbn [firstn app decodeVarint_loop].
  destruct (9 <? i); [discriminate|].
  destruct (b <? 0x80); [exact H|].
  apply IH. exact H.
Qed.

Lemma decodeVarint_loop_all_continuation d :
  forall i n s, 0 <= i <= 10 -> Forall (fun b => 0x80 <= b) d ->
    decodeVarint_loop d i n s
    = Err (if i + len d <=? 10 then ErrIncompleteVarint else ErrVarintTooLong).
Proof.
  induction d as [|b rest IH]; intros i n s Hi Hall; cbn [decodeVarint_loop].
  - change (len (@nil Z)) with 0. destruct (Z.leb_spec (i + 0) 10); [reflexivity|lia].
  - rewrite len_cons. pose proof (len_nonneg rest).
    inversion Hall as [|? ? Hb Hrest]; subst.
    destruct (Z.ltb_spec 9 i).
    + destruct (Z.leb_spec (i + (1 + len rest)) 10); [lia|reflexivity].
    + destruct (Z.ltb_spec b 0x80); [lia|].
      rewrite IH by (auto; lia).
      replace (i + 1 + len rest) with (i + (1 + len rest)) by ring. reflexivity.
Qed.

Lemma decodeVarint_bounds d v c :
  decodeVarint d = Ok (v, c) ->
  1 <= c <= 10 /\ c <= len d /\ 0 <= v < 2 ^ 64.
Proof.
  intros H. unfold decodeVarint in H.
  change (decodeVarint_loop d 0 0 0) with (decodeVarint_loop d 0 0 (7 * 0)) in H.
  apply decodeVarint_loop_bounds in H; try (change (2 ^ (7 * 0)) with 1; lia).
Qed.

(** X1: a successful [decodeVarint] consumed between 1 and 10 bytes, no
    more than it was given, and its value is a uint64. *)
Theorem decodeVarint_result_bounds (d : list Z) (v c : Z) :
  decodeVarint d = Ok (v, c) ->
  1 <= c <= 10 /\ c <= len d /\ 0 <= v < 2 ^ 64.
Proof. apply decodeVarint_bounds. Qed.

Lemma decodeVarint_result_bounds_witness :
  1 <= 2 <= 10 /\ 2 <= len [0x80; 0x00; 0x55] /\ 0 <= 0 < 2 ^ 64.
Proof. apply (decodeVarint_result_bounds [0x80; 0x00; 0x55] 0 2). reflexivity. Defined.

(** X2: [decodeVarint] fails in exactly two ways.  When every byte it is
    given has the continuation bit set, the error is "incomplete varint"
    for up to ten bytes (the empty input included) and "varint too long"
    beyond ten; and no other error ever comes out of it. *)
Theorem decodeVarint_errors (d : list Z) :
  (Forall (fun b => 0x80 <= b) d ->
   decodeVarint d
   = Err (if len d <=? 10 then ErrIncompleteVarint else ErrVarintTooLong)) /\
  (forall e, decodeVarint d = Err e ->
             e = ErrIncompleteVarint \/ e = ErrVarintTooLong).
Proof.
  split.
  - intros Hall. unfold decodeVarint.
    rewrite decodeVarint_loop_all_continuation by (auto; lia). reflexivity.
  - unfold decodeVarint. generalize 0 at 1 as i. generalize 0 at 1 as n.
    generalize 0 as s. induction d as [|b rest IH]; intros s n i e H;
      cbn [decodeVarint_loop] in H.
    + injection H as <-. auto.
    + destruct (9 <? i); [injection H as <-; auto|].
      destruct (b <? 0x80); [discriminate|]. eapply IH, H.
Qed.

(** X3: [decodeVarint] looks at the bytes it consumed and at nothing
    after them. *)
Theorem decodeVarint_reads_consumed_only (d t : list Z) (v c : Z) :
  decodeVarint d = Ok (v, c) ->
  decodeVarint (firstn (Z.to_nat c) d ++ t) = Ok (v, c).
Proof.
  intros H. unfold decodeVarint in *.
  apply decodeVarint_loop_prefix with (t := t) in H.
  rewrite Z.sub_0_r in H. exact H.
Qed.

Lemma decodeVarint_reads_consumed_only_witness :
  decodeVarint (firstn (Z.to_nat 2) [0xAC; 0x02; 0x07] ++ [0xFF; 0xFF]) = Ok (300, 2).
Proof.
  apply (decodeVarint_reads_consumed_only [0xAC; 0x02; 0x07] [0xFF; 0xFF] 300 2).
  reflexivity.
Defined.

Lemma encodeVarint_len_le_consumed d v c :
  decodeVarint d = Ok (v, c) -> len (encodeVarint v) <= c.
Proof.
  intros H. unfold decodeVarint in H.
  change (decodeVarint_loop d 0 0 0) with (decodeVarint_loop d 0 0 (7 * 0)) in H.
  apply decodeVarint_loop_bounds in H; try (change (2 ^ (7 * 0)) with 1; lia).
  destruct H as (Hc & _ & Hv & Hv64).
  unfold encodeVarint. rewrite encodeVarint_loop_len;
    [|lia|change (2 ^ (7 * Z.of_nat 10)) with (2 ^ 64 * 64); lia].
  assert (Hb : bits_needed v <= 7 * c).
  { unfold bits_needed. destruct (Z.eqb_spec v 0); [lia|].
    assert (Z.log2 v < 7 * c) by (apply Z.log2_lt_pow2; lia). lia. }
  assert ((bits_needed v + 6) / 7 < c + 1) by (apply Z.div_lt_upper_bound; lia).
  lia.
Qed.

(** X4: the decoder accepts non-minimal varints, and the encoder's output
    is never longer than any byte sequence that decodes to the same
    number. *)
Theorem encodeVarint_shortest (d : list Z) (v c : Z) :
  decodeVarint d = Ok (v, c) -> len (encodeVarint v) <= c.
Proof. apply encodeVarint_len_le_consumed. Qed.

Lemma encodeVarint_shortest_witness : len (encodeVarint 5) <= 3.
Proof. apply (encodeVarint_shortest [0x85; 0x80; 0x00] 5 3). reflexivity. Defined.

(** X5: varint encodings are prefix-free: if two of them, each followed
    by anything, give the same bytes, the numbers and the rests agree. *)
Theorem encodeVarint_prefix_free (n m : Z) (t1 t2 : list Z) :
  0 <= n < 2 ^ 64 -> 0 <= m < 2 ^ 64 ->
  encodeVarint n ++ t1 = encodeVarint m ++ t2 ->
  n = m /\ t1 = t2.
Proof.
  intros Hn Hm E.
  pose proof (decodeVarint_encodeVarint_app n t1 Hn) as H1.
  pose proof (decodeVarint_encodeVarint_app m t2 Hm) as H2.
  rewrite E, H2 in H1. injection H1 as <- _.
  split; [reflexivity|]. eapply app_inv_head, E.
Qed.

Lemma encodeVarint_prefix_free_witness :
  128 = 128 /\ [0x07] = [0x07].
Proof.
  apply (encodeVarint_prefix_free 128 128 [0x07] [0x07]); [lia|lia|reflexivity].
Defined.

(** ** The encoder: what it writes *)

Lemma byte_is_byte x : is_byte (byte x) = true.
Proof.
  pose proof (byte_range x). unfold is_byte.
  apply andb_true_iff. split; [apply Z.leb_le|apply Z.ltb_lt]; lia.
Qed.

Lemma encodeVarint_loop_bytes slots :
  forall n, 0 <= n -> forallb is_byte (encodeVarint_loop slots n) = true.
Proof.
  induction slots as [|slots IH]; intros n Hn; [reflexivity|].
  cbn [encodeVarint_loop]. destruct (Z.leb_spec 0x80 n); cbn [forallb].
  - rewrite IH by (rewrite shiftr7; apply Z.div_pos; lia).
    pose proof (cont_byte_range n). unfold is_byte.
    rewrite andb_true_r. apply andb_true_iff.
    split; [apply Z.leb_le|apply Z.ltb_lt]; lia.
  - rewrite byte_is_byte. reflexivity.
Qed.

Lemma forallb_app_true {A} (p : A -> bool) l1 l2 :
  forallb p l1 = true -> forallb p l2 = true -> forallb p (l1 ++ l2) = true.
Proof. intros H1 H2. rewrite forallb_app, H1, H2. reflexivity. Qed.

Lemma encode_bytes v : model_value v = true -> forallb is_byte (encode v) = true.
Proof.
  induction v as [|s|i|l IH|ty] using value_ind'; cbn [model_value];
    intros Hm; try discriminate.
  - reflexivity.
  - apply andb_true_iff in Hm as [Hb _]. rewrite encode_string.
    cbn [forallb]. apply forallb_app_true; [|exact Hb].
    apply encodeVarint_loop_bytes. apply uint64_range.
  - rewrite encode_int32. cbn [PutUint32 forallb].
    rewrite !byte_is_byte. reflexivity.
  - apply andb_true_iff in Hm as [_ Hall].
    assert (He : forallb encodable l = true).
    { clear - Hall. induction l as [|x xs IHl]; [reflexivity|].
      cbn [forallb] in *. apply andb_true_iff in Hall as [H1 H2].
      rewrite (model_value_encodable x H1), (IHl H2). reflexivity. }
    rewrite (encode_data l He). cbn [forallb].
    apply forallb_app_true; [apply encodeVarint_loop_bytes, uint64_range|].
    clear He. induction IH as [|x xs Hx _ IHxs]; [reflexivity|].
    cbn [forallb] in Hall. apply andb_true_iff in Hall as [H1 H2].
    cbn [map concat]. apply forallb_app_true; [exact (Hx H1)|exact (IHxs H2)].
Qed.

(** X6: for every value of the model, every element of [encode]'s output
    is a byte. *)
Theorem encode_output_is_bytes (v : value) :
  model_value v = true -> forallb is_byte (encode v) = true.
Proof. apply encode_bytes. Qed.

Lemma encode_output_is_bytes_witness :
  forallb is_byte (encode (NewDataInput [VInt32 (-1); VString [0xC3; 0xA9]; VNil])) = true.
Proof.
  apply (encode_output_is_bytes (NewDataInput [VInt32 (-1); VString [0xC3; 0xA9]; VNil])).
  vm_compute. reflexivity.
Defined.

(** X7: [encodeElement] only appends to the buffer: the bytes it was
    handed stay in front, what follows them and whether an error comes
    back do not depend on the buffer, and the error is nil exactly when no
    value of an unsupported type occurs anywhere in the element. *)
Theorem encodeElement_appends (buf : list Z) (v : value) :
  fst (encodeElement buf v) = buf ++ encode v /\
  snd (encodeElement buf v) = snd (encodeElement [] v) /\
  (snd (encodeElement buf v) = None <-> encodable v = true).
Proof.
  rewrite encodeElement_append. cbn [fst snd].
  split; [reflexivity|]. split; [reflexivity|]. split.
  - intros H. destruct (encodable v) eqn:E; [reflexivity|].
    exfalso. exact (encodeElement_fails v E H).
  - apply encodeElement_ok.
Qed.

(** X8: the encoding is prefix-free on the model: two encodings, each
    followed by anything, that give the same bytes come from the same
    value and are followed by the same bytes.  In particular [encode] is
    injective. *)
Theorem encode_prefix_free (v1 v2 : value) (t1 t2 : list Z) :
  model_value v1 = true -> model_value v2 = true ->
  len (encode v1) <= maxInt -> len (encode v2) <= maxInt ->
  encode v1 ++ t1 = encode v2 ++ t2 ->
  v1 = v2 /\ t1 = t2.
Proof.
  intros Hm1 Hm2 Hf1 Hf2 E.
  pose proof (decodeElement_encode_top v1 t1 Hm1 Hf1) as H1.
  pose proof (decodeElement_encode_top v2 t2 Hm2 Hf2) as H2.
  rewrite E, H2 in H1. injection H1 as <- _.
  split; [reflexivity|]. eapply app_inv_head, E.
Qed.

Lemma encode_prefix_free_witness :
  VString [0x61] = VString [0x61] /\ [0x00] = [0x00].
Proof.
  apply (encode_prefix_free (VString [0x61]) (VString [0x61]) [0x00] [0x00]);
    try reflexivity; vm_compute; discriminate.
Defined.

(** ** Structural comparison decides equality *)

Lemma bytes_eqb_eq a : forall b, bytes_eqb a b = true <-> a = b.
Proof.
  induction a as [|x a IH]; intros [|y b]; cbn [bytes_eqb];
    try (split; [discriminate|congruence]); [split; reflexivity|].
  rewrite andb_true_iff, Z.eqb_eq, IH. split; [intros [-> ->]; reflexivity|].
  intros E. injection E as -> ->. auto.
Qed.

Lemma compareDataInput_true a :
  forall b, compareDataInput a b = true -> a = b /\ encodable a = true.
Proof.
  induction a as [|s|i|l IH|ty] using value_ind'; intros b H;
    cbn [compareDataInput] in H; try discriminate.
  - destruct b; try discriminate. auto.
  - destruct b; try discriminate. apply bytes_eqb_eq in H. subst. auto.
  - destruct b; try discriminate. apply Z.eqb_eq in H. subst. auto.
  - destruct b as [| | |eb|]; try discriminate.
    destruct (Z.eqb_spec (len l) (len eb)) as [Hlen|]; [|discriminate].
    cbn [negb] in H. cbn [encodable].
    assert (Hl : length l = length eb) by (unfold len in Hlen; lia). clear Hlen.
    revert eb Hl H. induction IH as [|x xs Hx _ IHxs]; intros [|y ys] Hl H;
      try discriminate; [auto|].
    destruct (compareDataInput x y) eqn:Exy; [|discriminate]. cbn [negb] in H.
    destruct (Hx y Exy) as [-> Hex].
    destruct (IHxs ys ltac:(cbn [length] in Hl; lia) H) as [Heq Hexs].
    injection Heq as ->. cbn [forallb]. rewrite Hex, Hexs. auto.
Qed.

(** X9: [compareDataInput a b] is true exactly when [a] and [b] are the
    same tree and no value of an unsupported type occurs in it; a value
    holding such a type is not even equal to itself. *)
Theorem compareDataInput_decides_equality (a b : value) :
  compareDataInput a b = true <-> a = b /\ encodable a = true.
Proof.
  split; [apply compareDataInput_true|].
  intros [<- He]. apply compareDataInput_refl, He.
Qed.

(** ** The decoder: where the cursor ends *)

Lemma len_from {A} (d : list A) lo :
  0 <= lo <= len d -> len (from d lo) = len d - lo.
Proof. intros H. unfold from, len in *. rewrite length_skipn. lia. Qed.

Lemma decode_within f :
  (forall d o v o', 0 <= o -> decodeElement f d o = Ok (v, o') -> o' <= len d) /\
  (forall d c i o acc v o', 0 <= o <= len d ->
     decodeElements f d c i o acc = Ok (v, o') -> o' <= len d).
Proof.
  induction f as [|f [IH1 IH2]]; split.
  - intros d o v o' _ H. discriminate.
  - intros d c i o acc v o' Ho H. cbn [decodeElements] in H.
    destruct (i <? c); [discriminate|]. injection H as _ <-. lia.
  - intros d o v o' Ho H. cbn [decodeElement] in H. revert H.
    repeat branch; intros H; try discriminate;
      try (injection H as _ <-);
      repeat match goal with
        | E : (len d <=? o) = false |- _ => apply Z.leb_gt in E
        | E : (len d <? _) = false |- _ => apply Z.ltb_ge in E
        end; try lia.
    match goal with
    | E : decodeVarint _ = Ok _ |- _ => apply decodeVarint_consumed in E;
        rewrite len_from in E by lia
    end.
    apply IH2 in H; lia.
  - intros d c i o acc v o' Ho H. rewrite decodeElements_S in H.
    destruct (i <? c); [|injection H as _ <-; lia].
    destruct (decodeElement f d o) as [[elem bytesRead]|e|p|] eqn:E; try discriminate.
    pose proof (proj1 (decode_advances f) _ _ _ _ E).
    apply IH1 in E; [|lia]. apply IH2 in H; lia.
Qed.

(** X10: a successful [decodeElement] started inside the data has moved
    the cursor forward by at least one byte and not past the end. *)
Theorem decodeElement_cursor (f : nat) (d : list Z) (o o' : Z) (v : value) :
  0 <= o ->
  decodeElement f d o = Ok (v, o') ->
  o < o' <= len d.
Proof.
  intros Ho H. split.
  - apply (proj1 (decode_advances f)) in H. lia.
  - apply (proj1 (decode_within f)) in H; lia.
Qed.

Lemma decodeElement_cursor_witness : 2 < 7 <= len [0x00; 0x00; 0x02; 1; 2; 3; 4; 0x09].
Proof.
  apply (decodeElement_cursor 1 [0x00; 0x00; 0x02; 1; 2; 3; 4; 0x09] 2 7
           (VInt32 67305985)).
  - lia.
  - vm_compute. reflexivity.
Defined.

(** ** The decoder: what it returns is a value of the model *)

Lemma forallb_firstn {A} (p : A -> bool) n l :
  forallb p l = true -> forallb p (firstn n l) = true.
Proof.
  revert l. induction n as [|n IH]; intros [|x l] H; try reflexivity.
  cbn [forallb firstn] in *. apply andb_true_iff in H as [H1 H2].
  rewrite H1, (IH l H2). reflexivity.
Qed.

Lemma forallb_skipn {A} (p : A -> bool) n l :
  forallb p l = true -> forallb p (skipn n l) = true.
Proof.
  revert l. induction n as [|n IH]; intros [|x l] H; try reflexivity; try exact H.
  cbn [forallb skipn] in *. apply andb_true_iff in H as [_ H2]. exact (IH l H2).
Qed.

Lemma int32_range x : 0 <= x < 2 ^ 32 -> - 2 ^ 31 <= int32 x < 2 ^ 31.
Proof. intros H. unfold int32. destruct (Z.ltb_spec x (2 ^ 31)); lia. Qed.

(** What a string branch that got past the slice has established about
    the length it decoded: it was no wrapped or negative [int]. *)
Lemma string_bounds_ok offset length :
  0 <= offset -> 0 <= length < 2 ^ 64 ->
  (int_add offset (int length) <? offset) = false ->
  int_add offset (int length) = offset + length.
Proof.
  unfold int_add, int, uint64. intros Ho Hl H2.
  apply Z.ltb_ge in H2. revert H2.
  change (2 ^ 63) with 9223372036854775808 in *.
  change (2 ^ 64) with 18446744073709551616 in *.
  destruct (Z.ltb_spec length 9223372036854775808);
    destruct (Z.ltb_spec ((offset + length) mod 18446744073709551616)
                9223372036854775808);
    destruct (Z.ltb_spec ((offset + (length - 18446744073709551616))
                            mod 18446744073709551616) 9223372036854775808);
    intros; Z.div_mod_to_equations; lia.
Qed.

Lemma len_slice {A} (d : list A) lo hi :
  0 <= lo <= hi -> hi <= len d -> len (slice d lo hi) = hi - lo.
Proof.
  intros H1 H2. unfold slice, len in *. rewrite length_firstn, length_skipn. lia.
Qed.

Lemma forallb_slice (p : Z -> bool) d lo hi :
  forallb p d = true -> forallb p (slice d lo hi) = true.
Proof. intros H. unfold slice. apply forallb_firstn, forallb_skipn, H. Qed.

(** Whatever [decodeElement] returns is a value of the model, and encoding
    it again takes no more bytes than were consumed. *)
Lemma decode_sound f d :
  forallb is_byte d = true ->
  (forall o v o', 0 <= o -> decodeElement f d o = Ok (v, o') ->
     model_value v = true /\ len (encode v) <= o' - o) /\
  (forall c i o acc v o', 0 <= o -> decodeElements f d c i o acc = Ok (v, o') ->
     exists new, v = VDataInput (acc ++ new) /\ len new = Z.max 0 (c - i) /\
                 forallb model_value new = true /\
                 len (concat (map encode new)) <= o' - o).
Proof.
  intros Hd. induction f as [|f [IH1 IH2]]; split.
  - intros o v o' _ H. discriminate.
  - intros c i o acc v o' _ H. cbn [decodeElements] in H.
    destruct (Z.ltb_spec i c) as [|Hic]; [discriminate|]. injection H as <- <-.
    exists []. rewrite app_nil_r. change (len (@nil value)) with 0.
    cbn [map concat forallb]. change (len (@nil Z)) with 0. repeat split; lia.
  - intros o v o' Ho H. cbn [decodeElement] in H. revert H.
    destruct (Z.leb_spec (len d) o) as [|Hlt]; [discriminate|].
    destruct (index d o =? TypeString).
    { destruct (decodeVarint (from d (o + 1))) as [[length consumed]| | |] eqn:Ev;
        try discriminate.
      pose proof (decodeVarint_bounds _ _ _ Ev) as (Hc & Hcl & Hv).
      pose proof (encodeVarint_len_le_consumed _ _ _ Ev) as Hle.
      rewrite len_from in Hcl by lia.
      destruct (Z.ltb_spec (len d) (int_add (o + 1 + consumed) (int length)))
        as [|Hhi]; [discriminate|].
      destruct (int_add (o + 1 + consumed) (int length) <? o + 1 + consumed) eqn:Eb;
        [discriminate|].
      rewrite (string_bounds_ok (o + 1 + consumed) length ltac:(lia) Hv Eb) in *.
      destruct (ValidString (slice d (o + 1 + consumed) (o + 1 + consumed + length)))
        eqn:Eu; [|discriminate].
      cbn [negb]. intros H. injection H as <- <-.
      cbn [model_value]. rewrite Eu, forallb_slice by exact Hd.
      split; [reflexivity|].
      rewrite encode_string, len_cons, len_app, len_slice by lia.
      replace (o + 1 + consumed + length - (o + 1 + consumed)) with length by ring.
      rewrite uint64_small by lia. lia. }
    destruct (index d o =? TypeInt32).
    { destruct (Z.ltb_spec (len d) (o + 1 + 4)) as [|Hhi]; [discriminate|].
      intros H. injection H as <- <-. cbn [model_value]. split.
      - pose proof (int32_range (Uint32 (slice d (o + 1) (o + 1 + 4)))
                      (uint32_range _)).
        apply andb_true_iff. split; [apply Z.leb_le|apply Z.ltb_lt]; lia.
      - rewrite encode_int32, len_cons, len_PutUint32. lia. }
    destruct (index d o =? TypeDataInput).
    { destruct (decodeVarint (from d (o + 1))) as [[count consumed]| | |] eqn:Ev;
        try discriminate.
      pose proof (decodeVarint_bounds _ _ _ Ev) as (Hc & Hcl & Hv).
      pose proof (encodeVarint_len_le_consumed _ _ _ Ev) as Hle.
      destruct (Z.ltb_spec maxAlloc (ifaceSize * count)) as [|Ha]; [discriminate|].
      assert (Hcount : count <= maxInt)
        by (unfold ifaceSize, maxAlloc, maxInt in *; lia).
      rewrite int_small by lia. intros H.
      apply IH2 in H; [|lia].
      destruct H as (new & -> & Hn & Hall & Hsz). cbn [app].
      rewrite Z.sub_0_r, Z.max_r in Hn by lia.
      cbn [model_value]. rewrite Hall, Hn.
      destruct (Z.leb_spec (ifaceSize * count) maxAlloc) as [_|]; [|lia].
      split; [reflexivity|].
      assert (He : forallb encodable new = true).
      { clear - Hall. induction new as [|x xs IHl]; [reflexivity|].
        cbn [forallb] in *. apply andb_true_iff in Hall as [H1 H2].
        rewrite (model_value_encodable x H1), (IHl H2). reflexivity. }
      rewrite (encode_data new He), len_cons, len_app, Hn.
      rewrite uint64_small by lia. lia. }
    destruct (index d o =? TypeNull); [|discriminate].
    intros H. injection H as <- <-. split; [reflexivity|].
    rewrite encode_nil. change (len [TypeNull]) with 1. lia.
  - intros c i o acc v o' Ho H. rewrite decodeElements_S in H.
    destruct (Z.ltb_spec i c) as [Hic|Hic].
    + destruct (decodeElement f d o) as [[elem bytesRead]|e|p|] eqn:E;
        try discriminate.
      pose proof (proj1 (decode_advances f) _ _ _ _ E) as [Hadv _].
      apply IH1 in E; [|lia]. destruct E as [Hm Hsz].
      apply IH2 in H; [|lia]. destruct H as (new & -> & Hn & Hall & Hsz').
      exists (elem :: new). rewrite <- app_assoc. cbn [app map concat forallb].
      rewrite Hm, Hall, len_cons, len_app. repeat split; lia.
    + injection H as <- <-. exists []. rewrite app_nil_r.
      change (len (@nil value)) with 0.
      cbn [map concat forallb]. change (len (@nil Z)) with 0. repeat split; lia.
Qed.



(** X12: decoding normalises.  When [decodeElement] succeeds on an input
    of bytes that fits a Go string, encoding the result again takes no
    more bytes than were consumed (non-minimal varints shrink), and that
    encoding decodes to the same value. *)
Theorem decode_encode_decode (d : list Z) (v : value) (o' : Z) :
  forallb is_byte d = true ->
  len d <= maxInt ->
  decodeElement (decodeFuel d) d 0 = Ok (v, o') ->
  len (encode v) <= o' /\
  decodeElement (decodeFuel (encode v)) (encode v) 0 = Ok (v, len (encode v)) /\
  decode (encode v) = decode d.
Proof.
  intros Hd Hfit H.
  pose proof (proj1 (decode_within _) d 0 v o' (Z.le_refl 0) H) as Hin.
  pose proof (proj1 (decode_sound _ d Hd) 0 v o' (Z.le_refl 0) H) as [Hm Hsz].
  rewrite Z.sub_0_r in Hsz.
  pose proof (decodeElement_encode_top v [] Hm ltac:(lia)) as Hr.
  rewrite app_nil_r in Hr.
  split; [exact Hsz|]. split; [exact Hr|].
  unfold decode. rewrite Hr, H. reflexivity.
Qed.

Lemma decode_encode_decode_witness :
  let d := [0x03; 0x81; 0x80; 0x00; 0x01; 0x80; 0x00; 0xFF] in
  let v := VDataInput [VString []] in
  len (encode v) <= 7 /\
  decodeElement (decodeFuel (encode v)) (encode v) 0 = Ok (v, len (encode v)) /\
  decode (encode v) = decode d.
Proof.
  apply (decode_encode_decode [0x03; 0x81; 0x80; 0x00; 0x01; 0x80; 0x00; 0xFF]
           (VDataInput [VString []]) 7).
  - vm_compute. reflexivity.
  - vm_compute. discriminate.
  - vm_compute. reflexivity.
Defined.

(** ** The decoder: invalid UTF-8 is refused *)

Lemma decodeElement_invalid_utf8 f pre s suf :
  ValidString s = false ->
  len pre + 1 + len (encodeVarint (len s)) + len s <= maxInt ->
  decodeElement (S f) (pre ++ TypeString :: encodeVarint (len s) ++ s ++ suf) (len pre)
  = Err ErrInvalidUTF8.
Proof.
  intros Hv Hfit.
  pose proof (len_nonneg pre). pose proof (len_nonneg s).
  pose proof (len_nonneg suf). pose proof (len_nonneg (encodeVarint (len s))).
  rewrite decodeElement_string.
  rewrite decodeVarint_encodeVarint_app by (unfold maxInt in Hfit; lia).
  cbv zeta. rewrite int_small, int_add_small by lia.
  rewrite len_app, len_cons, !len_app.
  destruct (Z.ltb_spec (len pre + (1 + (len (encodeVarint (len s)) + (len s + len suf))))
              (len pre + 1 + len (encodeVarint (len s)) + len s)); [lia|].
  destruct (Z.ltb_spec (len pre + 1 + len (encodeVarint (len s)) + len s)
              (len pre + 1 + len (encodeVarint (len s)))); [lia|].
  change (pre ++ TypeString :: encodeVarint (len s) ++ s ++ suf)
    with (pre ++ (TypeString :: encodeVarint (len s)) ++ s ++ suf).
  rewrite (app_assoc pre).
  rewrite slice_at by (rewrite len_app, len_cons; ring).
  rewrite Hv. reflexivity.
Qed.

(** X13: a text element whose declared length is met but whose bytes are
    not valid UTF-8 is refused with "invalid UTF-8 string", wherever it
    sits in the buffer and whatever follows it. *)
Theorem invalid_utf8_rejected (f : nat) (pre s suf : list Z) :
  ValidString s = false ->
  len pre + 1 + len (encodeVarint (len s)) + len s <= maxInt ->
  decodeElement (S f) (pre ++ TypeString :: encodeVarint (len s) ++ s ++ suf) (len pre)
  = Err ErrInvalidUTF8.
Proof. apply decodeElement_invalid_utf8. Qed.

Lemma invalid_utf8_rejected_witness :
  decodeElement 2 ([0x03; 0x01] ++ TypeString :: encodeVarint (len [0xC3; 0x28])
                     ++ [0xC3; 0x28] ++ [0x00]) (len [0x03; 0x01])
  = Err ErrInvalidUTF8.
Proof.
  apply (invalid_utf8_rejected 1 [0x03; 0x01] [0xC3; 0x28] [0x00]).
  - reflexivity.
  - vm_compute. discriminate.
Defined.

(** X15: the round trip is lost for a Go string that is not valid UTF-8:
    [encode] writes its bytes as they are, [decode] refuses them and
    returns nil, which [compareDataInput] tells apart from the string. *)
Theorem invalid_utf8_string_does_not_round_trip (s : list Z) :
  ValidString s = false ->
  len (encode (VString s)) <= maxInt ->
  decodeElement (decodeFuel (encode (VString s))) (encode (VString s)) 0
  = Err ErrInvalidUTF8 /\
  decode (encode (VString s)) = Ok VNil /\
  compareDataInput (VString s) VNil = false.
Proof.
  intros Hv Hfit. rewrite encode_string, len_cons, len_app in *.
  pose proof (len_nonneg s). pose proof (len_nonneg (encodeVarint (uint64 (len s)))).
  assert (Hu : uint64 (len s) = len s)
    by (apply uint64_small; unfold maxInt in Hfit; lia).
  rewrite Hu in *.
  assert (Hd : decodeElement (decodeFuel (TypeString :: encodeVarint (len s) ++ s))
                 (TypeString :: encodeVarint (len s) ++ s) 0 = Err ErrInvalidUTF8).
  { apply (decodeElement_at_decodeFuel 1); [|discriminate].
    pose proof (decodeElement_invalid_utf8 O [] s [] Hv) as H1.
    cbn [app] in H1. rewrite app_nil_r in H1. change (len (@nil Z)) with 0 in H1.
    apply H1. lia. }
  split; [exact Hd|]. unfold decode. rewrite Hd. split; reflexivity.
Qed.

Lemma invalid_utf8_string_does_not_round_trip_witness :
  decodeElement (decodeFuel (encode (VString [0xFF; 0xFE]))) (encode (VString [0xFF; 0xFE])) 0
  = Err ErrInvalidUTF8 /\
  decode (encode (VString [0xFF; 0xFE])) = Ok VNil /\
  compareDataInput (VString [0xFF; 0xFE]) VNil = false.
Proof.
  apply (invalid_utf8_string_does_not_round_trip [0xFF; 0xFE]).
  - reflexivity.
  - vm_compute. discriminate.
Defined.

(** ** The decoder: nothing after the cursor is read *)

Lemma index_app_l p t o : 0 <= o < len p -> index (p ++ t) o = index p o.
Proof. intros H. unfold index, len in *. apply app_nth1. lia. Qed.

Lemma from_app_l {A} (p t : list A) k :
  0 <= k <= len p -> from (p ++ t) k = from p k ++ t.
Proof.
  intros H. unfold from, len in *. rewrite skipn_app.
  replace (Z.to_nat k - length p)%nat with O by lia. reflexivity.
Qed.

Lemma slice_app_l {A} (p t : list A) lo hi :
  0 <= lo -> hi <= len p -> slice (p ++ t) lo hi = slice p lo hi.
Proof.
  intros H1 H2. unfold slice, len in *. rewrite skipn_app, firstn_app, length_skipn.
  replace (Z.to_nat (hi - lo) - (length p - Z.to_nat lo))%nat with O by lia.
  cbn [firstn]. apply app_nil_r.
Qed.

Lemma decodeVarint_app_irrelevant q t t' n c :
  decodeVarint (q ++ t) = Ok (n, c) -> c <= len q ->
  decodeVarint (q ++ t') = Ok (n, c).
Proof.
  intros H Hc. unfold decodeVarint in *.
  pose proof (decodeVarint_loop_consumed _ _ _ _ _ _ H) as Hpos.
  apply decodeVarint_loop_prefix with (t := skipn (Z.to_nat c) q ++ t') in H.
  rewrite Z.sub_0_r, firstn_app in H.
  replace (Z.to_nat c - length q)%nat with O in H by (unfold len in Hc; lia).
  cbn [firstn] in H. rewrite app_nil_r, app_assoc, firstn_skipn in H. exact H.
Qed.

Lemma decode_app_irrelevant f p :
  (forall t t' o v o', 0 <= o ->
     decodeElement f (p ++ t) o = Ok (v, o') -> o' <= len p ->
     decodeElement f (p ++ t') o = Ok (v, o')) /\
  (forall t t' c i o acc v o', 0 <= o ->
     decodeElements f (p ++ t) c i o acc = Ok (v, o') -> o' <= len p ->
     decodeElements f (p ++ t') c i o acc = Ok (v, o')).
Proof.
  induction f as [|f [IH1 IH2]]; split.
  - intros t t' o v o' _ H. discriminate.
  - intros t t' c i o acc v o' _ H _. cbn [decodeElements] in *.
    destruct (i <? c); [discriminate|exact H].
  - intros t t' o v o' Ho H Hle.
    pose proof (proj1 (decode_advances (S f)) _ _ _ _ H) as [Hadv _].
    pose proof (len_nonneg t'). 
    cbn [decodeElement] in H |- *.
    rewrite len_app, index_app_l, from_app_l in H |- * by lia.
    destruct (Z.leb_spec (len p + len t) o) as [|_]; [discriminate|].
    destruct (Z.leb_spec (len p + len t') o) as [|_]; [lia|].
    destruct (index p o =? TypeString).
    { destruct (decodeVarint (from p (o + 1) ++ t)) as [[length consumed]| | |] eqn:Ev;
        try discriminate.
      destruct (len p + len t <? int_add (o + 1 + consumed) (int length));
        [discriminate|].
      destruct (Z.ltb_spec (int_add (o + 1 + consumed) (int length)) (o + 1 + consumed))
        as [|Hhi]; [discriminate|].
      destruct (negb (ValidString (slice (p ++ t) (o + 1 + consumed)
                                     (int_add (o + 1 + consumed) (int length)))))
        eqn:Eu; [discriminate|].
      assert (Ho' : o' = int_add (o + 1 + consumed) (int length)) by congruence.
      rewrite <- Ho' in *.
      pose proof (decodeVarint_consumed _ _ _ Ev) as Hc.
      rewrite (decodeVarint_app_irrelevant _ t t' _ _ Ev)
        by (rewrite len_from by lia; lia).
      rewrite <- Ho'.
      destruct (Z.ltb_spec (len p + len t') o'); [lia|].
      destruct (Z.ltb_spec o' (o + 1 + consumed)); [lia|].
      rewrite slice_app_l in H, Eu |- * by lia. rewrite Eu. exact H. }
    destruct (index p o =? TypeInt32).
    { destruct (len p + len t <? o + 1 + 4); [discriminate|].
      assert (Ho' : o' = o + 1 + 4) by congruence.
      destruct (Z.ltb_spec (len p + len t') (o + 1 + 4)); [lia|].
      rewrite slice_app_l in H |- * by lia. exact H. }
    destruct (index p o =? TypeDataInput).
    { destruct (decodeVarint (from p (o + 1) ++ t)) as [[count consumed]| | |] eqn:Ev;
        try discriminate.
      destruct (maxAlloc <? ifaceSize * count) eqn:Ea; [discriminate|].
      pose proof (decodeVarint_consumed _ _ _ Ev) as Hc.
      pose proof (proj2 (decode_advances f) _ _ _ _ _ _ _ H) as Hadv2.
      rewrite (decodeVarint_app_irrelevant _ t t' _ _ Ev)
        by (rewrite len_from by lia; lia).
      rewrite Ea. apply (IH2 t t'); [lia|exact H|exact Hle]. }
    exact H.
  - intros t t' c i o acc v o' Ho H Hle. rewrite decodeElements_S in H |- *.
    destruct (i <? c); [|exact H].
    destruct (decodeElement f (p ++ t) o) as [[elem bytesRead]|e|q|] eqn:E;
      try discriminate.
    pose proof (proj1 (decode_advances f) _ _ _ _ E) as [Hadv _].
    pose proof (proj2 (decode_advances f) _ _ _ _ _ _ _ H) as Hadv2.
    rewrite (IH1 t t' o elem bytesRead Ho E ltac:(lia)).
    apply (IH2 t t'); [lia|exact H|exact Hle].
Qed.

(** X14: [decodeElement] reads nothing at or after the offset it returns:
    replacing everything from that offset on, by any bytes, gives the same
    value and the same offset, and [decode] returns the same result. *)
Theorem decode_reads_consumed_only (d t : list Z) (v : value) (o' : Z) :
  decodeElement (decodeFuel d) d 0 = Ok (v, o') ->
  decodeElement (decodeFuel (firstn (Z.to_nat o') d ++ t)) (firstn (Z.to_nat o') d ++ t) 0
  = Ok (v, o') /\
  decode (firstn (Z.to_nat o') d ++ t) = decode d.
Proof.
  intros H.
  pose proof (proj1 (decode_within _) d 0 v o' (Z.le_refl 0) H) as Hin.
  pose proof (proj1 (decode_advances _) _ _ _ _ H) as [Hadv _].
  assert (Hr : decodeElement (decodeFuel (firstn (Z.to_nat o') d ++ t))
                 (firstn (Z.to_nat o') d ++ t) 0 = Ok (v, o')).
  { apply (decodeElement_at_decodeFuel (decodeFuel d)); [|discriminate].
    apply (proj1 (decode_app_irrelevant _ (firstn (Z.to_nat o') d))
             (skipn (Z.to_nat o') d) t 0 v o' (Z.le_refl 0)).
    - rewrite firstn_skipn. exact H.
    - unfold len in *. rewrite length_firstn. lia. }
  split; [exact Hr|]. unfold decode. rewrite Hr, H. reflexivity.
Qed.

Lemma decode_reads_consumed_only_witness :
  let d := [0x03; 0x01; 0x01; 0x02; 0x68; 0x69; 0x7F; 0x7F] in
  let t := [0xFF] in
  decodeElement (decodeFuel (firstn (Z.to_nat 6) d ++ t)) (firstn (Z.to_nat 6) d ++ t) 0
  = Ok (VDataInput [VString [0x68; 0x69]], 6) /\
  decode (firstn (Z.to_nat 6) d ++ t) = decode d.
Proof.
  apply (decode_reads_consumed_only [0x03; 0x01; 0x01; 0x02; 0x68; 0x69; 0x7F; 0x7F]
           [0xFF] (VDataInput [VString [0x68; 0x69]]) 6).
  vm_compute. reflexivity.
Defined.

(** * The optimisation helpers *)

(** ** [WriteVarintFast] writes what [encodeVarint] returns *)

Lemma set_index_app {A} (pre : list A) x0 post x :
  Opt.set_index (pre ++ x0 :: post) (len pre) x = Opt.Done (pre ++ x :: post).
Proof.
  unfold Opt.set_index. pose proof (len_nonneg pre).
  destruct (Z.ltb_spec (len pre) 0); [lia|].
  rewrite tag_in_range. cbn [orb]. unfold len. rewrite Nat2Z.id.
  rewrite firstn_app, firstn_all, Nat.sub_diag, skipn_app, skipn_all2 by lia.
  replace (length pre + 1 - length pre)%nat with 1%nat by lia.
  cbn [firstn skipn app]. rewrite app_nil_r. reflexivity.
Qed.

Lemma set_index_at {A} (pre : list A) x0 post x p :
  p = len pre ->
  Opt.set_index (pre ++ x0 :: post) p x = Opt.Done (pre ++ x :: post).
Proof. intros ->. apply set_index_app. Qed.

Lemma byte_lor_0x80 v : byte (Z.lor v 0x80) = Z.lor (byte v) 0x80.
Proof.
  unfold byte. rewrite <- !Z.land_ones by lia.
  rewrite Z.land_lor_distr_l. reflexivity.
Qed.

(** The loop and the final write, on a buffer with [rounds] cells of room
    after the cursor. *)
Lemma WriteVarintFast_loop_spec rounds :
  forall v pre room post,
    (0 < rounds)%nat -> 0 <= v < 2 ^ (7 * Z.of_nat rounds) -> length room = rounds ->
    exists b' p' v',
      Opt.WriteVarintFast_loop rounds (pre ++ room ++ post) (len pre) v
      = Opt.Done (b', p', v') /\
      Opt.set_index b' p' (byte v')
      = Opt.Done (pre ++ encodeVarint_loop rounds v
                    ++ skipn (length (encodeVarint_loop rounds v)) room ++ post) /\
      p' + 1 = len pre + len (encodeVarint_loop rounds v).
Proof.
  induction rounds as [|rounds IH]; intros v pre room post Hpos Hv Hroom; [lia|].
  destruct room as [|r0 room]; [discriminate|]. injection Hroom as Hroom.
  rewrite pow7_slots in Hv.
  cbn [Opt.WriteVarintFast_loop encodeVarint_loop].
  destruct (Z.leb_spec 0x80 v) as [Hge|Hlt].
  - assert (Hq : 1 <= v / 128) by (apply Z.div_le_lower_bound; lia).
    assert (Hq' : v / 128 < 2 ^ (7 * Z.of_nat rounds))
      by (apply Z.div_lt_upper_bound; lia).
    assert (Hs : (0 < rounds)%nat).
    { destruct rounds; [|lia]. change (2 ^ (7 * Z.of_nat 0)) with 1 in Hq'. lia. }
    cbn [app]. rewrite set_index_app, shiftr7.
    destruct (IH (v / 128) (pre ++ [Z.lor (byte v) 0x80]) room post Hs ltac:(lia) Hroom)
      as (b' & p' & v' & Hl & Hw & Hp).
    rewrite len_app in Hl, Hp. change (len [Z.lor (byte v) 0x80]) with 1 in Hl, Hp.
    rewrite <- app_assoc in Hl. cbn [app] in Hl.
    exists b', p', v'. rewrite Hl, Hw, len_cons, <- app_assoc.
    cbn [app length skipn]. split; [reflexivity|]. split; [reflexivity|lia].
  - exists (pre ++ (r0 :: room) ++ post), (len pre), v.
    cbn [app length skipn]. rewrite set_index_app.
    change (len [byte v]) with 1. split; [reflexivity|]. split; reflexivity.
Qed.

Lemma firstn_app_exact {A} (pre rest : list A) n :
  n = length pre -> firstn n (pre ++ rest) = pre.
Proof.
  intros ->. rewrite firstn_app, firstn_all, Nat.sub_diag. apply app_nil_r.
Qed.

Lemma split_room {A} (t : list A) n :
  (n <= length t)%nat ->
  exists room post, t = room ++ post /\ length room = n.
Proof.
  intros H. exists (firstn n t), (skipn n t).
  rewrite firstn_skipn, length_firstn. split; [reflexivity|lia].
Qed.

(** X16: [WriteVarintFast] agrees with [encodeVarint].  From a cursor
    inside the buffer it returns without a panic, leaves the bytes before
    the cursor as they were, writes exactly the bytes of [encodeVarint v]
    from the cursor on (the two unrolled cases included) and advances the
    cursor by their number; the buffer never shrinks. *)
Theorem WriteVarintFast_agrees (e : Opt.OptimizedEncoder) (v : Z) :
  0 <= Opt.pos e <= len (Opt.buf e) ->
  (Opt.pos e + 10) * 2 <= maxAlloc ->
  0 <= v < 2 ^ 64 ->
  exists b',
    Opt.WriteVarintFast e v
    = Opt.Done {| Opt.buf := b'; Opt.pos := Opt.pos e + len (encodeVarint v) |} /\
    firstn (Z.to_nat (Opt.pos e)) b' = firstn (Z.to_nat (Opt.pos e)) (Opt.buf e) /\
    slice b' (Opt.pos e) (Opt.pos e + len (encodeVarint v)) = encodeVarint v /\
    len (Opt.buf e) <= len b'.
Proof.
  destruct e as [b p]. cbn [Opt.buf Opt.pos]. intros Hp Ha Hv.
  set (pre := firstn (Z.to_nat p) b).
  assert (Hpre : len pre = p) by (unfold pre, len in *; rewrite length_firstn; lia).
  (* the buffer after the capacity check *)
  assert (Hg : exists room post,
             length room = 10%nat /\ len b <= len (pre ++ room ++ post) /\
             (if len b <? p + 10 then
                if ((p + 10) * 2 <? 0) || (maxAlloc <? (p + 10) * 2)
                then Opt.Fault (Opt.MakesliceOutOfRange ((p + 10) * 2))
                else if (p <? 0) || (len b <? p) then Opt.Fault (Opt.SliceOutOfRange 0 p)
                else Opt.Done (firstn (Z.to_nat p) b
                                 ++ repeat 0 (Z.to_nat ((p + 10) * 2 - p)))
              else Opt.Done b) = Opt.Done (pre ++ room ++ post)).
  { destruct (Z.ltb_spec (len b) (p + 10)) as [Hsmall|Hbig].
    - destruct (Z.ltb_spec ((p + 10) * 2) 0); [lia|].
      destruct (Z.ltb_spec maxAlloc ((p + 10) * 2)); [lia|].
      destruct (Z.ltb_spec p 0); [lia|]. destruct (Z.ltb_spec (len b) p); [lia|].
      cbn [orb].
      destruct (split_room (repeat 0 (Z.to_nat ((p + 10) * 2 - p))) 10
                  ltac:(rewrite repeat_length; lia)) as (room & post & Hr & Hl).
      exists room, post. rewrite <- Hr. fold pre.
      split; [exact Hl|]. split; [|reflexivity].
      rewrite len_app, Hpre. unfold len at 2. rewrite repeat_length. lia.
    - destruct (split_room (skipn (Z.to_nat p) b) 10
                  ltac:(rewrite length_skipn; unfold len in *; lia))
        as (room & post & Hr & Hl).
      exists room, post. rewrite <- Hr. unfold pre. rewrite firstn_skipn.
      split; [exact Hl|]. split; [lia|reflexivity]. }
  destruct Hg as (room & post & Hroom & Hlen & Hg).
  assert (Hfin : forall enc,
             (length enc <= 10)%nat ->
             firstn (Z.to_nat p) (pre ++ enc ++ skipn (length enc) room ++ post) = pre /\
             slice (pre ++ enc ++ skipn (length enc) room ++ post) p (p + len enc) = enc /\
             len b <= len (pre ++ enc ++ skipn (length enc) room ++ post)).
  { intros enc He. split; [apply firstn_app_exact; unfold len in Hpre; lia|].
    split; [rewrite <- Hpre; apply slice_app_len|].
    rewrite !len_app in *. unfold len in *. rewrite length_skipn. lia. }
  unfold Opt.WriteVarintFast. cbn [Opt.buf Opt.pos]. cbv zeta. rewrite Hg. clear Hg.
  destruct room as [|r0 [|r1 room]]; try discriminate.
  unfold encodeVarint.
  destruct (Z.ltb_spec v 128) as [H1|H1].
  - cbn [app]. rewrite set_index_at by (symmetry; exact Hpre).
    cbn [encodeVarint_loop]. destruct (Z.leb_spec 0x80 v); [lia|].
    exists (pre ++ byte v :: (r1 :: room) ++ post).
    change (len [byte v]) with 1. split; [reflexivity|].
    apply (Hfin [byte v]). cbn. lia.
  - destruct (Z.ltb_spec v 16384) as [H2|H2].
    + cbn [app]. rewrite set_index_at by (symmetry; exact Hpre).
      change (pre ++ byte (Z.lor v 0x80) :: r1 :: room ++ post)
        with (pre ++ [byte (Z.lor v 0x80)] ++ r1 :: room ++ post).
      rewrite app_assoc.
      rewrite set_index_at by (rewrite len_app, Hpre; reflexivity).
      rewrite <- app_assoc, byte_lor_0x80. cbn [app].
      cbn [encodeVarint_loop]. destruct (Z.leb_spec 0x80 v); [|lia].
      rewrite shiftr7.
      assert (v / 128 < 128) by (apply Z.div_lt_upper_bound; lia).
      destruct (Z.leb_spec 0x80 (v / 128)); [lia|].
      exists (pre ++ Z.lor (byte v) 0x80 :: byte (v / 128) :: room ++ post).
      change (len [Z.lor (byte v) 0x80; byte (v / 128)]) with 2.
      split; [reflexivity|].
      apply (Hfin [Z.lor (byte v) 0x80; byte (v / 128)]). cbn. lia.
    + destruct (WriteVarintFast_loop_spec 10 v pre (r0 :: r1 :: room) post
                  ltac:(lia)
                  ltac:(change (2 ^ (7 * Z.of_nat 10)) with (2 ^ 64 * 64); lia) Hroom)
        as (b' & p' & v' & Hl & Hw & Hp').
      rewrite Hpre in Hl. rewrite Hl, Hw.
      eexists. split; [f_equal; f_equal; lia|].
      apply Hfin.
      pose proof (encodeVarint_loop_len 10 v ltac:(lia)
                    ltac:(change (2 ^ (7 * Z.of_nat 10)) with (2 ^ 64 * 64); lia)) as Hel.
      assert (Hbits : 0 <= bits_needed v <= 64).
      { unfold bits_needed. destruct (Z.eqb_spec v 0); [lia|].
        assert (Z.log2 v < 64) by (apply Z.log2_lt_pow2; lia).
        pose proof (Z.log2_nonneg v). lia. }
      assert ((bits_needed v + 6) / 7 < 11) by (apply Z.div_lt_upper_bound; lia).
      unfold len in Hel. lia.
Qed.

Lemma WriteVarintFast_agrees_witness :
  let e := {| Opt.buf := [0x01; 0x02; 0x03]; Opt.pos := 2 |} in
  exists b',
    Opt.WriteVarintFast e 300
    = Opt.Done {| Opt.buf := b'; Opt.pos := Opt.pos e + len (encodeVarint 300) |} /\
    firstn (Z.to_nat (Opt.pos e)) b' = firstn (Z.to_nat (Opt.pos e)) (Opt.buf e) /\
    slice b' (Opt.pos e) (Opt.pos e + len (encodeVarint 300)) = encodeVarint 300 /\
    len (Opt.buf e) <= len b'.
Proof.
  apply (WriteVarintFast_agrees {| Opt.buf := [0x01; 0x02; 0x03]; Opt.pos := 2 |} 300).
  - vm_compute. split; discriminate.
  - vm_compute. discriminate.
  - lia.
Defined.

(** ** The byte comparisons *)

Lemma range_compare_step x a bpre y brest :
  Opt.range_compare (x :: a) (bpre ++ y :: brest) (len bpre)
  = if negb (x =? y) then Opt.Done false
    else Opt.range_compare a ((bpre ++ [y]) ++ brest) (len (bpre ++ [y])).
Proof.
  cbn [Opt.range_compare]. pose proof (len_nonneg bpre).
  destruct (Z.ltb_spec (len bpre) 0); [lia|].
  rewrite tag_in_range, index_app_len. cbn [orb].
  rewrite <- app_assoc, len_app. reflexivity.
Qed.

Lemma range_compare_same_length a :
  forall b bpre, length a = length b ->
    Opt.range_compare a (bpre ++ b) (len bpre) = Opt.Done (bytes_eqb a b).
Proof.
  induction a as [|x a IH]; intros [|y b] bpre Hl; try discriminate; [reflexivity|].
  rewrite range_compare_step. cbn [bytes_eqb].
  destruct (x =? y); cbn [negb andb]; [|reflexivity].
  apply IH. cbn [length] in Hl. lia.
Qed.

Lemma range_compare_prefix a :
  forall bpre t, Opt.range_compare a (bpre ++ a ++ t) (len bpre) = Opt.Done true.
Proof.
  induction a as [|x a IH]; intros bpre t; [reflexivity|].
  cbn [app]. rewrite range_compare_step, Z.eqb_refl. cbn [negb]. apply IH.
Qed.

Lemma range_compare_short b :
  forall bpre x t,
    Opt.range_compare (b ++ x :: t) (bpre ++ b) (len bpre)
    = Opt.Fault (Opt.IndexOutOfRange (len (bpre ++ b)) (len (bpre ++ b))).
Proof.
  induction b as [|y b IH]; intros bpre x t.
  - cbn [app Opt.range_compare]. rewrite app_nil_r.
    destruct (Z.leb_spec (len bpre) (len bpre)); [|lia].
    rewrite orb_true_r. reflexivity.
  - cbn [app]. rewrite range_compare_step, Z.eqb_refl. cbn [negb].
    rewrite IH, <- app_assoc. reflexivity.
Qed.

(** X17: [SIMDStringCompare] never panics and answers true exactly when
    the two byte strings are equal, on the short path and on the long
    one. *)
Theorem SIMDStringCompare_decides_equality (a b : list Z) :
  exists r, Opt.SIMDStringCompare a b = Opt.Done r /\ (r = true <-> a = b).
Proof.
  unfold Opt.SIMDStringCompare, Opt.simdCompareBytes.
  destruct (Z.eqb_spec (len a) (len b)) as [Hl|Hl]; cbn [negb].
  - exists (bytes_eqb a b). split; [|apply bytes_eqb_eq].
    assert (Hn : length a = length b) by (unfold len in Hl; lia).
    pose proof (range_compare_same_length a b [] Hn) as H.
    cbn [app] in H. change (len (@nil Z)) with 0 in H.
    destruct (len a <? 16); exact H.
  - exists false. split; [reflexivity|]. split; [discriminate|].
    intros ->. contradiction.
Qed.

(** X18: [simdCompareBytes] on its own does not compare lengths.  It
    answers true whenever its first argument is a prefix of the second,
    and it panics with an index out of range when the second is a proper
    prefix of the first. *)
Theorem simdCompareBytes_unequal_lengths (a t : list Z) (x : Z) :
  Opt.simdCompareBytes a (a ++ t) = Opt.Done true /\
  Opt.simdCompareBytes (a ++ x :: t) a
  = Opt.Fault (Opt.IndexOutOfRange (len a) (len a)).
Proof.
  unfold Opt.simdCompareBytes. split.
  - apply (range_compare_prefix a [] t).
  - apply (range_compare_short a [] x t).
Qed.

(** ** The aligned buffer *)

Lemma skipn_repeat {A} (x : A) n k : skipn k (repeat x n) = repeat x (n - k).
Proof.
  revert k. induction n as [|n IH]; intros [|k]; try reflexivity.
  cbn [repeat skipn]. rewrite IH. reflexivity.
Qed.

Lemma firstn_repeat_le {A} (x : A) n k :
  (k <= n)%nat -> firstn k (repeat x n) = repeat x k.
Proof.
  revert k. induction n as [|n IH]; intros [|k] H; try reflexivity; [lia|].
  cbn [repeat firstn]. rewrite IH by lia. reflexivity.
Qed.

Lemma align_offset_spec ptr :
  0 <= Opt.align_offset ptr < 64 /\ (ptr + Opt.align_offset ptr) mod 64 = 0.
Proof. unfold Opt.align_offset. Z.div_mod_to_equations. lia. Qed.



(** ** The ring buffer's capacity *)

Lemma lor_shiftr_spread v w J :
  0 < J ->
  (forall i, 0 <= i ->
     Z.testbit w i = true <-> exists j, 0 <= j < J /\ Z.testbit v (i + j) = true) ->
  forall i, 0 <= i ->
    Z.testbit (Z.lor w (Z.shiftr w J)) i = true
    <-> exists j, 0 <= j < 2 * J /\ Z.testbit v (i + j) = true.
Proof.
  intros HJ Hw i Hi.
  rewrite Z.lor_spec, Z.shiftr_spec, orb_true_iff, (Hw i Hi), (Hw (i + J)) by lia.
  split.
  - intros [(j & Hj & Hb)|(j & Hj & Hb)].
    + exists j. split; [lia|exact Hb].
    + exists (J + j). split; [lia|]. rewrite Z.add_assoc. exact Hb.
  - intros (j & Hj & Hb). destruct (Z.lt_ge_cases j J).
    + left. exists j. split; [lia|exact Hb].
    + right. exists (j - J). split; [lia|].
      replace (i + J + (j - J)) with (i + j) by ring. exact Hb.
Qed.

(** The six or-shift steps set every bit below the highest one. *)
Lemma smear_ones v :
  0 < v < 2 ^ 64 ->
  let v1 := Z.lor v (Z.shiftr v 1) in
  let v2 := Z.lor v1 (Z.shiftr v1 2) in
  let v3 := Z.lor v2 (Z.shiftr v2 4) in
  let v4 := Z.lor v3 (Z.shiftr v3 8) in
  let v5 := Z.lor v4 (Z.shiftr v4 16) in
  let v6 := Z.lor v5 (Z.shiftr v5 32) in
  v6 = 2 ^ (Z.log2 v + 1) - 1.
Proof.
  intros Hv v1 v2 v3 v4 v5 v6.
  assert (H0 : forall i, 0 <= i ->
             Z.testbit v i = true <-> exists j, 0 <= j < 1 /\ Z.testbit v (i + j) = true).
  { intros i Hi. split.
    - intros Hb. exists 0. rewrite Z.add_0_r. split; [lia|exact Hb].
    - intros (j & Hj & Hb). replace j with 0 in Hb by lia.
      rewrite Z.add_0_r in Hb. exact Hb. }
  pose proof (lor_shiftr_spread v v 1 ltac:(lia) H0) as H1. fold v1 in H1.
  pose proof (lor_shiftr_spread v v1 2 ltac:(lia) H1) as H2. fold v2 in H2.
  pose proof (lor_shiftr_spread v v2 4 ltac:(lia) H2) as H3. fold v3 in H3.
  pose proof (lor_shiftr_spread v v3 8 ltac:(lia) H3) as H4. fold v4 in H4.
  pose proof (lor_shiftr_spread v v4 16 ltac:(lia) H4) as H5. fold v5 in H5.
  pose proof (lor_shiftr_spread v v5 32 ltac:(lia) H5) as H6. fold v6 in H6.
  change (2 * 32) with 64 in H6. clear H0 H1 H2 H3 H4 H5.
  assert (Hk : 0 <= Z.log2 v < 64).
  { split; [apply Z.log2_nonneg|apply Z.log2_lt_pow2; lia]. }
  replace (2 ^ (Z.log2 v + 1) - 1) with (Z.ones (Z.log2 v + 1))
    by (rewrite Z.ones_equiv; lia).
  apply Z.bits_inj'. intros i Hi.
  destruct (Z.lt_ge_cases i (Z.log2 v + 1)) as [Hlow|Hhigh].
  - rewrite Z.ones_spec_low by lia. apply (H6 i Hi).
    exists (Z.log2 v - i). split; [lia|].
    replace (i + (Z.log2 v - i)) with (Z.log2 v) by ring.
    apply Z.bit_log2. lia.
  - rewrite Z.ones_spec_high by lia.
    destruct (Z.testbit v6 i) eqn:E; [|reflexivity].
    apply (H6 i Hi) in E. destruct E as (j & Hj & Hb).
    rewrite Z.bits_above_log2 in Hb by lia. discriminate.
Qed.

Lemma power_of_two_test c :
  1 <= c -> Z.land c (c - 1) = 0 -> c = 2 ^ Z.log2 c.
Proof.
  intros Hc Hl.
  destruct (Z.log2_spec c ltac:(lia)) as [Hlo Hhi].
  destruct (Z.eq_dec c (2 ^ Z.log2 c)) as [|Hne]; [assumption|exfalso].
  assert (Hk : Z.log2 (c - 1) = Z.log2 c).
  { apply Z.log2_unique; [apply Z.log2_nonneg|lia]. }
  assert (Hb : Z.testbit (Z.land c (c - 1)) (Z.log2 c) = true).
  { rewrite Z.land_spec, Z.bit_log2 by lia.
    rewrite <- Hk. rewrite Z.bit_log2; [reflexivity|].
    pose proof (Z.pow_pos_nonneg 2 (Z.log2 c) ltac:(lia) (Z.log2_nonneg c)). lia. }
  rewrite Hl, Z.bits_0 in Hb. discriminate.
Qed.

Lemma round_capacity_spec c :
  1 <= c < 2 ^ 64 ->
  Opt.round_capacity c = if c <=? 2 ^ 63 then 2 ^ Z.log2_up c else 0.
Proof.
  intros Hc. unfold Opt.round_capacity.
  rewrite (uint64_small (c - 1)) by lia.
  destruct (Z.eqb_spec (Z.land c (c - 1)) 0) as [Hz|Hnz]; cbn [negb].
  - pose proof (power_of_two_test c ltac:(lia) Hz) as Hp.
    assert (Hk : Z.log2 c < 64) by (apply Z.log2_lt_pow2; lia).
    pose proof (Z.log2_nonneg c).
    destruct (Z.leb_spec c (2 ^ 63)) as [Hle|Hgt].
    + rewrite Hp at 2. rewrite Z.log2_up_pow2 by lia. exact Hp.
    + exfalso. assert (Z.log2 c = 63); [|rewrite H0 in Hp; lia].
      assert (63 <= Z.log2 c) by (apply Z.log2_le_pow2; lia). lia.
  - assert (Hc2 : 2 <= c).
    { destruct (Z.eq_dec c 1) as [->|]; [|lia]. exfalso. apply Hnz. reflexivity. }
    cbv zeta. rewrite (smear_ones (c - 1)) by lia.
    replace (2 ^ (Z.log2 (c - 1) + 1) - 1 + 1) with (2 ^ (Z.log2 (c - 1) + 1)) by ring.
    rewrite Z.log2_up_eqn by lia.
    change (Z.pred c) with (c - 1). fold (Z.succ (Z.log2 (c - 1))).
    rewrite <- Z.add_1_r.
    pose proof (Z.log2_nonneg (c - 1)).
    destruct (Z.leb_spec c (2 ^ 63)) as [Hle|Hgt].
    + assert (Z.log2 (c - 1) < 63) by (apply Z.log2_lt_pow2; lia).
      apply uint64_small. split; [apply Z.pow_nonneg; lia|].
      apply Z.pow_lt_mono_r; lia.
    + assert (Z.log2 (c - 1) = 63).
      { apply Z.log2_unique; [lia|]. change (2 ^ (63 + 1)) with (2 ^ 64). lia. }
      rewrite H0. reflexivity.
Qed.



(** X21: the two ends of the capacity range.  A requested capacity of 0
    stays 0, and any request above 2^63 wraps around to 0 as well: in both
    cases [NewLockFreeRingBuffer] returns, without a panic, a ring buffer
    with no slot at all. *)
Theorem NewLockFreeRingBuffer_degenerate (c : Z) :
  c = 0 \/ 2 ^ 63 < c < 2 ^ 64 ->
  Opt.NewLockFreeRingBuffer c
  = Opt.Done {| Opt.buffer := []; Opt.capacity := 0; Opt.head := 0; Opt.tail := 0 |}.
Proof.
  intros [->|Hc]; [reflexivity|].
  unfold Opt.NewLockFreeRingBuffer.
  rewrite round_capacity_spec by lia.
  destruct (Z.leb_spec c (2 ^ 63)); [lia|]. reflexivity.
Qed.

Lemma NewLockFreeRingBuffer_degenerate_witness :
  Opt.NewLockFreeRingBuffer (2 ^ 63 + 1)
  = Opt.Done {| Opt.buffer := []; Opt.capacity := 0; Opt.head := 0; Opt.tail := 0 |}.
Proof.
  apply (NewLockFreeRingBuffer_degenerate (2 ^ 63 + 1)). right. lia.
Defined.

(** ** The batch encoder *)

Lemma In_index_range i s e : In i (Opt.index_range s e) <-> s <= i < e.
Proof.
  unfold Opt.index_range. rewrite in_map_iff. split.
  - intros (k & <- & Hk). apply in_seq in Hk. lia.
  - intros H. exists (Z.to_nat (i - s)). split; [lia|]. apply in_seq. lia.
Qed.

Lemma In_spawn rounds :
  forall i w workers cs n,
    In i (concat (Opt.spawn rounds w workers cs n)) <->
    exists w', w <= w' < workers /\ w' < w + Z.of_nat rounds /\
               w' * cs <= i < (if n <? w' * cs + cs then n else w' * cs + cs).
Proof.
  induction rounds as [|rounds IH]; intros i w workers cs n; cbn [Opt.spawn].
  - cbn [concat]. split; [contradiction|]. intros (w' & H1 & H2 & _). lia.
  - destruct (Z.ltb_spec w workers) as [Hw|Hw].
    + cbn [concat]. rewrite in_app_iff, In_index_range, IH. split.
      * intros [H|(w' & H1 & H2 & H3)].
        -- exists w. split; [lia|]. split; [lia|exact H].
        -- exists w'. split; [lia|]. split; [lia|exact H3].
      * intros (w' & H1 & H2 & H3). destruct (Z.eq_dec w' w) as [->|].
        -- left. exact H3.
        -- right. exists w'. split; [lia|]. split; [lia|exact H3].
    + cbn [concat]. split; [contradiction|]. intros (w' & H1 & _). lia.
Qed.

Lemma set_index_nth {A} (l : list A) i x d :
  0 <= i < len l ->
  exists l', Opt.set_index l i x = Opt.Done l' /\ length l' = length l /\
             forall k, nth k l' d = if Nat.eqb k (Z.to_nat i) then x else nth k l d.
Proof.
  intros Hi. unfold Opt.set_index.
  destruct (Z.ltb_spec i 0); [lia|]. destruct (Z.leb_spec (len l) i); [lia|].
  cbn [orb]. eexists. split; [reflexivity|].
  unfold len in Hi.
  assert (Hf : length (firstn (Z.to_nat i) l) = Z.to_nat i)
    by (rewrite length_firstn; lia).
  split.
  - rewrite length_app, Hf. cbn [length]. rewrite length_skipn. lia.
  - intros k. destruct (Nat.eqb_spec k (Z.to_nat i)) as [->|Hne].
    + rewrite app_nth2 by lia. rewrite Hf, Nat.sub_diag. reflexivity.
    + destruct (Nat.lt_ge_cases k (Z.to_nat i)).
      * rewrite app_nth1 by lia.
        rewrite <- (firstn_skipn (Z.to_nat i) l) at 2. rewrite app_nth1 by lia.
        reflexivity.
      * rewrite app_nth2 by lia. rewrite Hf.
        destruct (k - Z.to_nat i)%nat as [|m] eqn:Em; [lia|]. cbn [nth].
        rewrite nth_skipn. f_equal. lia.
Qed.

(** After any sequence of in-range writes, a slot holds the encoding of
    its input if its index was written and what it held before if not. *)
Lemma run_writes_spec inputs ws :
  forall results,
    length results = length inputs ->
    Forall (fun i => 0 <= i < len inputs) ws ->
    exists results',
      Opt.run_writes inputs results ws = Opt.Done results' /\
      length results' = length inputs /\
      forall k, nth k results' [] =
                if existsb (Z.eqb (Z.of_nat k)) ws
                then encode (nth k inputs VNil) else nth k results [].
Proof.
  induction ws as [|i ws IH]; intros results Hl Hall.
  - exists results. split; [reflexivity|]. split; [exact Hl|reflexivity].
  - inversion Hall as [|? ? Hi Hrest]; subst.
    cbn [Opt.run_writes]. unfold Opt.write_result.
    destruct (Z.ltb_spec i 0); [lia|]. destruct (Z.leb_spec (len inputs) i); [lia|].
    cbn [orb].
    destruct (set_index_nth results i (encode (nth (Z.to_nat i) inputs VNil)) []
                ltac:(unfold len in *; lia)) as (r1 & Hs & Hl1 & Hn1).
    rewrite Hs.
    destruct (IH r1 ltac:(lia) Hrest) as (r2 & Hr & Hl2 & Hn2).
    exists r2. split; [exact Hr|]. split; [exact Hl2|].
    intros k. rewrite Hn2, Hn1. cbn [existsb].
    destruct (existsb (Z.eqb (Z.of_nat k)) ws); [rewrite orb_true_r; reflexivity|].
    rewrite orb_false_r.
    destruct (Nat.eqb_spec k (Z.to_nat i)) as [Hk|Hne];
      destruct (Z.eqb_spec (Z.of_nat k) i) as [Hz|Hz]; try lia; try reflexivity.
    subst k. reflexivity.
Qed.

Lemma run_writes_all inputs ws :
  Forall (fun i => 0 <= i < len inputs) ws ->
  (forall i, 0 <= i < len inputs -> In i ws) ->
  Opt.run_writes inputs (repeat [] (length inputs)) ws = Opt.Done (map encode inputs).
Proof.
  intros Hall Hcov.
  destruct (run_writes_spec inputs ws (repeat [] (length inputs))
              (repeat_length _ _) Hall) as (r & Hr & Hl & Hn).
  rewrite Hr. f_equal.
  apply (nth_ext r (map encode inputs) [] (encode VNil)).
  - rewrite length_map. exact Hl.
  - intros k Hk. rewrite Hn, map_nth.
    assert (He : existsb (Z.eqb (Z.of_nat k)) ws = true).
    { apply existsb_exists. exists (Z.of_nat k). split; [|apply Z.eqb_refl].
      apply Hcov. unfold len. lia. }
    rewrite He. reflexivity.
Qed.

Lemma spawn_covers workers n :
  0 < workers -> workers * 2 <= n ->
  let cs := Z.quot (n + workers - 1) workers in
  forall i, In i (concat (Opt.spawn (Z.to_nat workers) 0 workers cs n)) <-> 0 <= i < n.
Proof.
  intros Hw Hn cs i.
  assert (Hq : cs = (n + workers - 1) / workers)
    by (unfold cs; apply Z.quot_div_nonneg; lia).
  assert (Hcs : n <= cs * workers /\ 2 <= cs).
  { rewrite Hq. split.
    - pose proof (Z.div_mod (n + workers - 1) workers ltac:(lia)).
      pose proof (Z.mod_pos_bound (n + workers - 1) workers Hw). nia.
    - apply Z.div_le_lower_bound; lia. }
  destruct Hcs as [Hcov Hcs2].
  rewrite In_spawn. split.
  - intros (w' & H1 & H2 & H3).
    assert (0 <= w' * cs) by (apply Z.mul_nonneg_nonneg; lia).
    destruct (n <? w' * cs + cs) eqn:E; [lia|]. apply Z.ltb_ge in E. lia.
  - intros Hi. exists (i / cs).
    pose proof (Z.div_mod i cs ltac:(lia)) as Hdm.
    pose proof (Z.mod_pos_bound i cs ltac:(lia)) as Hm.
    assert (0 <= i / cs) by (apply Z.div_pos; lia).
    assert (i / cs < workers) by (apply Z.div_lt_upper_bound; lia).
    split; [lia|]. split; [lia|].
    destruct (n <? i / cs * cs + cs); lia.
Qed.

(** X22: with a positive number of workers, [EncodeBatch] returns the
    encodings of its inputs, in order, one per input: on the sequential
    path, and on the parallel path whatever the order in which the writes
    of the goroutines take place, since the chunks cover every index and
    each write depends on its index alone. *)
Theorem EncodeBatch_results (schedule : list (list Z) -> list Z) (workers : Z)
    (inputs : list value) :
  0 < workers -> workers * 2 <= maxInt ->
  (forall gs, Permutation (schedule gs) (concat gs)) ->
  Opt.EncodeBatch schedule workers inputs = Opt.Done (map encode inputs).
Proof.
  intros Hw Hfit Hs. unfold Opt.EncodeBatch. cbv zeta.
  rewrite uint64_small, int_small by (unfold maxInt in *; lia).
  pose proof (len_nonneg inputs) as Hn.
  destruct (Z.ltb_spec (len inputs) (workers * 2)) as [Hseq|Hpar].
  - apply run_writes_all.
    + apply Forall_forall. intros i Hi. apply In_index_range in Hi. exact Hi.
    + intros i Hi. apply In_index_range. exact Hi.
  - destruct (Z.eqb_spec workers 0); [lia|].
    pose proof (spawn_covers workers (len inputs) Hw Hpar) as Hcov. cbv zeta in Hcov.
    apply run_writes_all.
    + apply Forall_forall. intros i Hi.
      apply (Permutation_in _ (Hs _)) in Hi. apply Hcov. exact Hi.
    + intros i Hi. apply (Permutation_in _ (Permutation_sym (Hs _))).
      apply Hcov. exact Hi.
Qed.

Lemma EncodeBatch_results_witness :
  Opt.EncodeBatch (fun gs => rev (concat gs)) 2
    [VNil; VInt32 1; VString [0x61]; VNil; VInt32 2]
  = Opt.Done (map encode [VNil; VInt32 1; VString [0x61]; VNil; VInt32 2]).
Proof.
  apply (EncodeBatch_results (fun gs => rev (concat gs)) 2
           [VNil; VInt32 1; VString [0x61]; VNil; VInt32 2]).
  - lia.
  - vm_compute. discriminate.
  - intros gs. apply Permutation_sym, Permutation_rev.
Defined.

(** X23: without a positive number of workers [EncodeBatch] does not
    encode.  With 0 workers it panics on the chunk-size division, for every
    input, even an empty one; with a negative number it starts no
    goroutine and returns one empty string per input. *)
Theorem EncodeBatch_without_workers (schedule : list (list Z) -> list Z)
    (workers : Z) (inputs : list value) :
  - 2 ^ 62 <= workers <= 0 ->
  schedule [] = [] ->
  Opt.EncodeBatch schedule workers inputs
  = if workers =? 0 then Opt.Fault Opt.DivideByZero
    else Opt.Done (repeat [] (length inputs)).
Proof.
  intros Hw Hs. unfold Opt.EncodeBatch. cbv zeta.
  pose proof (len_nonneg inputs) as Hn.
  assert (Hi : int (uint64 (workers * 2)) <= 0).
  { unfold int, uint64.
    change (2 ^ 63) with 9223372036854775808. change (2 ^ 64) with 18446744073709551616.
    change (2 ^ 62) with 4611686018427387904 in Hw.
    destruct (Z.ltb_spec ((workers * 2) mod 18446744073709551616) 9223372036854775808);
      Z.div_mod_to_equations; lia. }
  destruct (Z.ltb_spec (len inputs) (int (uint64 (workers * 2)))); [lia|].
  destruct (Z.eqb_spec workers 0); [reflexivity|].
  replace (Z.to_nat workers) with O by lia. cbn [Opt.spawn].
  rewrite Hs. reflexivity.
Qed.

Lemma EncodeBatch_without_workers_witness :
  Opt.EncodeBatch (@concat Z) 0 []
  = if 0 =? 0 then Opt.Fault Opt.DivideByZero
    else Opt.Done (repeat [] (@length value [])).
Proof.
  apply (EncodeBatch_without_workers (@concat Z) 0 []); [|reflexivity].
  vm_compute. split; discriminate.
Defined.

Lemma decodeVarint_errors_witness :
  decodeVarint [0x80; 0xFF; 0x81]
  = Err (if len [0x80; 0xFF; 0x81] <=? 10 then ErrIncompleteVarint else ErrVarintTooLong).
Proof.
  apply (proj1 (decodeVarint_errors [0x80; 0xFF; 0x81])).
  repeat constructor; discriminate.
Defined.
